(** * ropoly: gadget decoding, process enumeration, fingerprints

    A shallow embedding of the Go sources

      - [lib/architectures/amd64/x86Decoder.go]  (module [Amd64])
      - [lib/GadgetsFromProcess.go]              (module [Process])
      - [lib/Fingerprint.go]                     (module [Fingerprints])
      - [DisassembleFile]                        (module [Disassemble])
      - the HTTP handlers that call them         (module [Handlers])

    Go values are modelled as follows.  [int], [uintptr], [uint64] and
    [disasm.Ptr] are [Z]; unsigned 64-bit subtraction and addition are
    written with their wrap-around ([Go.sub64], [Go.add64]).  An [error] is a
    small tree of messages.  A byte slice is a [Go.slice]: the elements
    inside its length and the elements between length and capacity.  A nil
    slice of any other type and an empty one are both the empty list.  Go
    maps are [gmap]s, and the unspecified order of a [range] over a map is
    an explicit argument of the function that ranges.  Panics are a
    constructor of [Go.outcome]; loops whose termination depends on a
    library or on the operating system are given fuel. *)

From Stdlib Require Import ZArith Lia Strings.Byte Strings.Ascii.
From stdpp Require Import base option list strings gmap.

Local Open Scope Z_scope.

(* ===================================================================== *)
(** ** Go values shared by all files *)
(* ===================================================================== *)

Module Go.

(** [error]: what [errors.New], [errors.Wrapf] and [fmt.Errorf] build, with
    the format string and its arguments kept apart.  [ErrNew] also stands
    for the errors of the libraries. *)
Inductive error : Type :=
| ErrNew (msg : string)
| Wrapf (cause : error) (format : string) (args : list Z)
| Errorf (format : string) (arg : string).

(** A call either returns or panics with a value (its printed form). *)
Inductive outcome (A : Type) : Type :=
| Returns (a : A)
| Panics (x : string).
Arguments Returns {A} a.
Arguments Panics {A} x.

#[export] Instance outcome_ret : MRet outcome := fun A a => Returns a.
#[export] Instance outcome_bind : MBind outcome := fun A B k m =>
  match m with
  | Returns a => k a
  | Panics x => Panics x
  end.

(** [s[lo:hi]] of a byte slice shares the array of [s]: [elems] are the
    bytes below [len s], [spare] those from [len s] up to [cap s]. *)
Record slice : Type := Slice { elems : list byte; spare : list byte }.

Definition len (s : slice) : Z := Z.of_nat (length (elems s)).
Definition cap (s : slice) : Z := Z.of_nat (length (elems s ++ spare s)).

(** [s[0:hi]]: legal for [0 <= hi <= cap s], a run-time panic otherwise. *)
Definition slice_to (s : slice) (hi : Z) : outcome slice :=
  if (0 <=? hi) && (hi <=? cap s) then
    Returns {| elems := take (Z.to_nat hi) (elems s ++ spare s);
               spare := drop (Z.to_nat hi) (elems s ++ spare s) |}
  else Panics "slice bounds out of range".

(** [s[lo:]], that is [s[lo:len(s)]]: legal for [0 <= lo <= len s]. *)
Definition slice_from (s : slice) (lo : Z) : outcome slice :=
  if (0 <=? lo) && (lo <=? len s) then
    Returns {| elems := drop (Z.to_nat lo) (elems s); spare := spare s |}
  else Panics "slice bounds out of range".

(** A slice whose capacity is its length. *)
Definition of_bytes (l : list byte) : slice := {| elems := l; spare := [] |}.

(** 64-bit unsigned arithmetic. *)
Definition two64 : Z := 2 ^ 64.
Definition sub64 (a b : Z) : Z := (a - b) mod two64.
Definition add64 (a b : Z) : Z := (a + b) mod two64.

End Go.

(* ===================================================================== *)
(** ** lib/architectures/amd64/x86Decoder.go *)
(* ===================================================================== *)

Module Amd64.
Import Go.

(** What the decoder reads of an [x86asm.Inst]: its length in bytes and
    the text [inst.String()] renders. *)
Record Inst : Type := { Len : Z; Syntax : string }.

(** [types.Instruction] *)
Record Instruction : Type := { Octets : slice; DisAsm : string }.

(** [types.Gadget] is a slice of instructions. *)
Definition Gadget : Type := list Instruction.

Definition octets (i : Instruction) : list byte := elems (Octets i).

Section Decoder.

(** [x86asm.Decode(src, mode)]: returns an instruction and an error, or
    panics.  It reads the bytes below [len(src)]. *)
Variable Decode : list byte -> Z -> outcome (Inst * option error).

(** The function body, up to the point where the deferred function runs:
    a panic of [x86asm.Decode] or of the slice expression leaves it
    early. *)
Definition InstructionDecoder_body (opcodes : slice)
  : outcome (option Instruction * option error) :=
  r ← Decode (elems opcodes) 64;
  match snd r with
  | Some err => Returns (None, Some (Wrapf err "Unable to decode instruction." []))
  | None =>
      o ← slice_to opcodes (Len (fst r));
      Returns (Some {| Octets := o; DisAsm := Syntax (fst r) |}, None)
  end.

(** The deferred function: [recover()] is non-nil exactly after a panic,
    when [instruction] still holds nil, and [err] is overwritten. *)
Definition InstructionDecoder (opcodes : slice)
  : option Instruction * option error :=
  match InstructionDecoder_body opcodes with
  | Returns r => r
  | Panics x =>
      (None, Some (Errorf "Unable to decode instruction due to disassembler panic: %v" x))
  end.

(** The loop of [GadgetDecoder] with the gadget accumulated so far.  One
    unit of fuel pays for one iteration; [None] is fuel exhaustion.
    [instr.Octets] on a nil [instr] is a panic. *)
Fixpoint GadgetDecoder_loop (fuel : nat) (opcodes : slice) (gadget : Gadget)
  : option (outcome (Gadget * option error)) :=
  if 0 <? len opcodes then
    match fuel with
    | O => None
    | S fuel' =>
        let (instr, err) := InstructionDecoder opcodes in
        match err with
        | Some e =>
            Some (Returns ([], Some (Wrapf e "Error decoding underlying instruction." [])))
        | None =>
            match instr with
            | None => Some (Panics "invalid memory address or nil pointer dereference")
            | Some i =>
                let gadget := gadget ++ [i] in
                let gadlen := len (Octets i) in
                if len opcodes <=? gadlen then Some (Returns (gadget, None))
                else
                  match slice_from opcodes gadlen with
                  | Panics x => Some (Panics x)
                  | Returns rest => GadgetDecoder_loop fuel' rest gadget
                  end
            end
        end
    end
  else Some (Returns (gadget, None)).

Definition GadgetDecoder (fuel : nat) (opcodes : slice)
  : option (outcome (Gadget * option error)) :=
  GadgetDecoder_loop fuel opcodes [].

(** A scan of a buffer: one decoding attempt at every offset, as the
    callers of the decoder make them. *)
Definition decode_at (buf : list byte) (k : nat)
  : option Instruction * option error :=
  InstructionDecoder (of_bytes (drop k buf)).

Definition scan (buf : list byte) : list (option Instruction * option error) :=
  map (decode_at buf) (seq 0 (length buf)).

(** [s[k:]] for [k <= len s], as a total function. *)
Definition advance (s : slice) (k : nat) : slice :=
  {| elems := drop k (elems s); spare := spare s |}.

(** [decoded_from s g]: the instructions of [g] are what
    [InstructionDecoder] returns at the successive offsets of [s], each
    attempt starting where the octets of the previous one end. *)
Fixpoint decoded_from (s : slice) (g : Gadget) : Prop :=
  match g with
  | [] => True
  | i :: g' =>
      InstructionDecoder s = (Some i, None) /\
      decoded_from (advance s (length (octets i))) g'
  end.

(** [consumed_prefixes bytes g]: each instruction of [g] holds, as its
    octets, the prefix of the remaining bytes whose length is the [Len]
    that [x86asm.Decode] reported for them. *)
Fixpoint consumed_prefixes (bytes : list byte) (g : Gadget) : Prop :=
  match g with
  | [] => True
  | i :: g' =>
      exists inst,
        Decode bytes 64 = Returns (inst, None) /\
        octets i = take (Z.to_nat (Len inst)) bytes /\
        DisAsm i = Syntax inst /\
        consumed_prefixes (drop (Z.to_nat (Len inst)) bytes) g'
  end.

(** What [x86asm.Decode] promises of a successful decoding: the
    instruction lies within the bytes given ([Decode_within]) and is at
    least one byte long ([Decode_progress]). *)
Definition Decode_within : Prop :=
  forall src inst, Decode src 64 = Returns (inst, None) ->
    Len inst <= Z.of_nat (length src).

Definition Decode_progress : Prop :=
  forall src inst, Decode src 64 = Returns (inst, None) -> 1 <= Len inst.

(** What a run of the loop that returns leaves behind: either every
    attempt succeeded and the octets cover the slice, or the attempt after
    the instructions [g] failed with [e] before the end of the slice. *)
Definition decoded_all (s : slice) (acc : Gadget) (r : Gadget * option error) : Prop :=
  exists g, r = (acc ++ g, None) /\ decoded_from s g /\
            concat (map octets g) = elems s.

Definition failed_inside (s : slice) (r : Gadget * option error) : Prop :=
  exists g e,
    r = ([], Some (Wrapf e "Error decoding underlying instruction." [])) /\
    decoded_from s g /\
    (length (concat (map octets g)) < length (elems s))%nat /\
    InstructionDecoder (advance s (length (concat (map octets g)))) = (None, Some e).

End Decoder.

(** Modelled from the spec: whether the operand of a JMP or CALL is an
    immediate target, which no file under src/ decides.  The Go syntax of
    x86asm prints a relative target as [.+n] or [.-n] and an immediate as
    [$n]; registers and memory references start otherwise. *)
Definition immediate_operand (operand : string) : bool :=
  String.prefix "." operand || String.prefix "$" operand.

(** Modelled from the spec: the terminator set of AMD64 (section 6), which
    no file under src/ defines.  An instruction is control-flow-terminating
    when its mnemonic begins with RET, or is JMP or CALL with an operand
    that is a register or a memory reference. *)
Definition is_terminator (i : Instruction) : bool :=
  let text := DisAsm i in
  if String.prefix "RET" text then true
  else if String.prefix "JMP " text then
    negb (immediate_operand (String.substring 4 (String.length text) text))
  else if String.prefix "CALL " text then
    negb (immediate_operand (String.substring 5 (String.length text) text))
  else false.

(** The gadget decoder as section 4.2 words it: decoding stops when the
    slice is exhausted or when the instruction appended last is
    control-flow-terminating.  To be compared with [GadgetDecoder]. *)
Fixpoint GadgetDecoder_until_terminator
    (Decode : list byte -> Z -> outcome (Inst * option error))
    (fuel : nat) (opcodes : slice) (gadget : Gadget)
  : option (outcome (Gadget * option error)) :=
  if 0 <? len opcodes then
    match fuel with
    | O => None
    | S fuel' =>
        match InstructionDecoder Decode opcodes with
        | (_, Some e) =>
            Some (Returns ([], Some (Wrapf e "Error decoding underlying instruction." [])))
        | (None, None) => Some (Panics "invalid memory address or nil pointer dereference")
        | (Some i, None) =>
            if is_terminator i then Some (Returns (gadget ++ [i], None))
            else if len opcodes <=? len (Octets i) then Some (Returns (gadget ++ [i], None))
            else GadgetDecoder_until_terminator Decode fuel'
                   (advance opcodes (length (octets i))) (gadget ++ [i])
        end
    end
  else Some (Returns (gadget, None)).

(** A decoder for a handful of one- and two-byte AMD64 instructions, with
    the lengths and the Go syntax x86asm gives them in 64-bit mode; every
    other byte sequence is unrecognized.  Used to run the definitions. *)
Definition no_inst : Inst := {| Len := 0; Syntax := "" |}.

Definition tiny_x86 (src : list byte) (mode : Z) : outcome (Inst * option error) :=
  match src with
  | [] => Returns (no_inst, Some (ErrNew "truncated instruction"))
  | xc3 :: _ => Returns ({| Len := 1; Syntax := "RET" |}, None)
  | x90 :: _ => Returns ({| Len := 1; Syntax := "NOP" |}, None)
  | x58 :: _ => Returns ({| Len := 1; Syntax := "POP RAX" |}, None)
  | xff :: [] => Returns (no_inst, Some (ErrNew "truncated instruction"))
  | xff :: xe0 :: _ => Returns ({| Len := 2; Syntax := "JMP RAX" |}, None)
  | _ => Returns (no_inst, Some (ErrNew "unrecognized instruction"))
  end.

(** A disassembler that breaks the promise of [x86asm.Decode]: it reports
    two bytes whatever it is given. *)
Definition overlong_x86 (src : list byte) (mode : Z) : outcome (Inst * option error) :=
  Returns ({| Len := 2; Syntax := "RET" |}, None).

(** A disassembler that aborts on the byte [0xf1] and is [tiny_x86]
    elsewhere. *)
Definition faulty_x86 (src : list byte) (mode : Z) : outcome (Inst * option error) :=
  match src with
  | xf1 :: _ => Panics "runtime error: index out of range"
  | _ => tiny_x86 src mode
  end.

(** An instruction of the examples: its octets, the rest of the array,
    and its text. *)
Definition instr (bytes rest : list byte) (text : string) : Instruction :=
  {| Octets := {| elems := bytes; spare := rest |}; DisAsm := text |}.

(* --------------------------------------------------------------------- *)
(** *** Facts about the instruction decoder *)
(* --------------------------------------------------------------------- *)

Section DecoderFacts.

Variable Decode : list byte -> Z -> outcome (Inst * option error).

Lemma slice_to_Returns s hi o :
  slice_to s hi = Returns o ->
  0 <= hi <= cap s /\
  o = {| elems := take (Z.to_nat hi) (elems s ++ spare s);
         spare := drop (Z.to_nat hi) (elems s ++ spare s) |}.
Proof.
  unfold slice_to. destruct (0 <=? hi) eqn:H0; destruct (hi <=? cap s) eqn:H1;
    simpl; intros H; try discriminate.
  injection H as <-. split; [lia | reflexivity].
Qed.

(** The result of [InstructionDecoder] by cases on what [x86asm.Decode]
    did. *)
Lemma InstructionDecoder_success s i err :
  InstructionDecoder Decode s = (Some i, err) ->
  err = None /\
  exists inst,
    Decode (elems s) 64 = Returns (inst, None) /\
    0 <= Len inst <= cap s /\
    octets i = take (Z.to_nat (Len inst)) (elems s ++ spare s) /\
    DisAsm i = Syntax inst.
Proof.
  unfold InstructionDecoder, InstructionDecoder_body.
  destruct (Decode (elems s) 64) as [[inst [e|]]|x] eqn:HD; simpl; try discriminate.
  destruct (slice_to s (Len inst)) as [o|x] eqn:Ho; simpl; try discriminate.
  intros H. injection H as <- <-. split; [reflexivity|].
  apply slice_to_Returns in Ho as [Hr ->].
  exists inst. repeat split; try tauto; lia.
Qed.

Lemma InstructionDecoder_nil_instruction s err :
  InstructionDecoder Decode s = (None, err) -> exists e, err = Some e.
Proof.
  unfold InstructionDecoder, InstructionDecoder_body.
  destruct (Decode (elems s) 64) as [[inst [e|]]|x]; simpl.
  - intros H. injection H as <-. eauto.
  - destruct (slice_to s (Len inst)); simpl; intros H; [discriminate|].
    injection H as <-. eauto.
  - intros H. injection H as <-. eauto.
Qed.

(** Under [Decode_within] the octets of a decoded instruction are a
    prefix of the bytes below the length of the slice. *)
Lemma InstructionDecoder_octets s i :
  Decode_within Decode ->
  InstructionDecoder Decode s = (Some i, None) ->
  exists inst,
    Decode (elems s) 64 = Returns (inst, None) /\
    (Z.to_nat (Len inst) <= length (elems s))%nat /\
    octets i = take (Z.to_nat (Len inst)) (elems s) /\
    length (octets i) = Z.to_nat (Len inst) /\
    DisAsm i = Syntax inst.
Proof.
  intros Hw H. apply InstructionDecoder_success in H as (_ & inst & HD & Hr & Ho & Hs).
  pose proof (Hw _ _ HD) as Hle.
  assert (Hn : (Z.to_nat (Len inst) <= length (elems s))%nat) by lia.
  exists inst. rewrite Ho, take_app_le by exact Hn.
  repeat split; try assumption. rewrite length_take. lia.
Qed.

(* --------------------------------------------------------------------- *)
(** *** Facts about the gadget decoder *)
(* --------------------------------------------------------------------- *)

Lemma len_pos_cons (s : slice) :
  (0 <? len s) = true -> (0 < length (elems s))%nat.
Proof. unfold len. intros H%Z.ltb_lt. lia. Qed.

Lemma len_zero_nil (s : slice) :
  (0 <? len s) = false -> elems s = [].
Proof.
  unfold len. intros H%Z.ltb_ge. destruct (elems s); [reflexivity | simpl in H; lia].
Qed.

Lemma slice_from_advance (s : slice) (k : nat) :
  (k <= length (elems s))%nat ->
  slice_from s (Z.of_nat k) = Returns (advance s k).
Proof.
  intros Hk. unfold slice_from, advance, len.
  replace (0 <=? Z.of_nat k) with true by (symmetry; apply Z.leb_le; lia).
  replace (Z.of_nat k <=? Z.of_nat (length (elems s))) with true
    by (symmetry; apply Z.leb_le; lia).
  simpl. rewrite Nat2Z.id. reflexivity.
Qed.

(** One iteration on a non-empty slice whose attempt succeeds. *)
Lemma GadgetDecoder_loop_step fuel s acc i :
  Decode_within Decode ->
  (0 <? len s) = true ->
  InstructionDecoder Decode s = (Some i, None) ->
  (length (octets i) <= length (elems s))%nat /\
  GadgetDecoder_loop Decode (S fuel) s acc =
    if decide (length (elems s) <= length (octets i))%nat
    then Some (Returns (acc ++ [i], None))
    else GadgetDecoder_loop Decode fuel (advance s (length (octets i))) (acc ++ [i]).
Proof.
  intros Hw Hpos Hi.
  destruct (InstructionDecoder_octets s i Hw Hi) as (inst & _ & Hn & _ & Hlen & _).
  split; [lia|].
  cbn [GadgetDecoder_loop]. rewrite Hpos, Hi.
  change (len (Octets i)) with (Z.of_nat (length (octets i))). unfold len at 1.
  destruct (decide (length (elems s) <= length (octets i))%nat) as [Hle|Hgt].
  - replace (Z.of_nat (length (elems s)) <=? Z.of_nat (length (octets i))) with true
      by (symmetry; apply Z.leb_le; lia).
    reflexivity.
  - replace (Z.of_nat (length (elems s)) <=? Z.of_nat (length (octets i))) with false
      by (symmetry; apply Z.leb_gt; lia).
    rewrite slice_from_advance by lia. reflexivity.
Qed.

(** A run that returns a gadget and no error decoded every byte. *)
Lemma GadgetDecoder_loop_success fuel :
  Decode_within Decode ->
  forall s acc g,
    GadgetDecoder_loop Decode fuel s acc = Some (Returns (g, None)) ->
    exists g', g = acc ++ g' /\ concat (map octets g') = elems s /\
               consumed_prefixes Decode (elems s) g'.
Proof.
  intros Hw. induction fuel as [|fuel IH]; intros s acc g Hrun.
  - simpl in Hrun. destruct (0 <? len s) eqn:Hpos; [discriminate|].
    injection Hrun as <-. exists []. rewrite app_nil_r, (len_zero_nil s Hpos). done.
  - destruct (0 <? len s) eqn:Hpos.
    2:{ simpl in Hrun. rewrite Hpos in Hrun. injection Hrun as <-.
        exists []. rewrite app_nil_r, (len_zero_nil s Hpos). done. }
    destruct (InstructionDecoder Decode s) as [[i|] [e|]] eqn:Hi;
      try (cbn [GadgetDecoder_loop] in Hrun; rewrite Hpos, Hi in Hrun; discriminate).
    destruct (GadgetDecoder_loop_step fuel s acc i Hw Hpos Hi) as [Hle Heq].
    destruct (InstructionDecoder_octets s i Hw Hi)
      as (inst & HD & Hn & Ho & Hlen & Hs).
    rewrite Heq in Hrun. destruct (decide _) as [Hall|Hmore].
    + injection Hrun as <-. exists [i]. split; [reflexivity|]. simpl.
      rewrite app_nil_r. split.
      * rewrite Ho. apply take_ge. lia.
      * exists inst. done.
    + apply IH in Hrun as (g' & -> & Hcat & Hpre). exists (i :: g').
      rewrite <- app_assoc. split; [reflexivity|]. simpl. split.
      * simpl in Hcat. rewrite Hcat, Hlen, Ho. apply take_drop.
      * exists inst. simpl in Hpre. rewrite Hlen in Hpre. done.
Qed.

(** With [Decode_progress] as well, fuel for one iteration per byte is
    enough, and the run ends in one of the two ways. *)
Lemma GadgetDecoder_loop_total fuel :
  Decode_within Decode -> Decode_progress Decode ->
  forall s acc, (length (elems s) <= fuel)%nat ->
    exists r, GadgetDecoder_loop Decode fuel s acc = Some (Returns r) /\
              (decoded_all Decode s acc r \/ failed_inside Decode s r).
Proof.
  intros Hw Hp. induction fuel as [|fuel IH]; intros s acc Hfuel.
  - exists (acc, None). destruct (elems s) eqn:Hs; [|simpl in Hfuel; lia].
    unfold GadgetDecoder_loop, len. rewrite Hs. simpl. split; [reflexivity|].
    left. exists []. rewrite app_nil_r, Hs. done.
  - destruct (0 <? len s) eqn:Hpos.
    2:{ exists (acc, None). cbn [GadgetDecoder_loop]. rewrite Hpos.
        split; [reflexivity|]. left. exists [].
        rewrite app_nil_r, (len_zero_nil s Hpos). done. }
    destruct (InstructionDecoder Decode s) as [[i|] err] eqn:Hi.
    + destruct (InstructionDecoder_success s i err Hi) as [-> _].
      destruct (GadgetDecoder_loop_step fuel s acc i Hw Hpos Hi) as [Hle Heq].
      destruct (InstructionDecoder_octets s i Hw Hi)
        as (inst & HD & Hn & Ho & Hlen & Hs).
      pose proof (Hp _ _ HD) as Hone.
      rewrite Heq. destruct (decide _) as [Hall|Hmore].
      * eexists. split; [reflexivity|]. left. exists [i]. simpl.
        rewrite app_nil_r. repeat split; try done.
        rewrite Ho. apply take_ge. lia.
      * destruct (IH (advance s (length (octets i))) (acc ++ [i])) as (r & Hr & Hkind).
        { simpl. rewrite length_drop. lia. }
        exists r. split; [exact Hr|].
        destruct Hkind as [(g & -> & Hdec & Hcat)|(g & e & -> & Hdec & Hlt & Hfail)].
        -- left. exists (i :: g). rewrite <- app_assoc. simpl.
           repeat split; try done.
           simpl in Hcat. rewrite Hcat. rewrite Ho at 1. rewrite Hlen. apply take_drop.
        -- right. exists (i :: g), e. simpl. rewrite length_app.
           simpl in Hlt. rewrite length_drop in Hlt.
           repeat split; try done; [lia|].
           unfold advance in Hfail |- *. simpl in Hfail.
           rewrite drop_drop in Hfail. exact Hfail.
    + destruct (InstructionDecoder_nil_instruction s err Hi) as [e ->].
      eexists. cbn [GadgetDecoder_loop]. rewrite Hpos, Hi. split; [reflexivity|].
      right. exists [], e. simpl. apply len_pos_cons in Hpos.
      repeat split; try done;
        unfold advance; rewrite drop_0; destruct s; exact Hi.
Qed.

(** More fuel never changes a result. *)
Lemma GadgetDecoder_loop_fuel_mono fuel :
  forall fuel' s acc r, (fuel <= fuel')%nat ->
    GadgetDecoder_loop Decode fuel s acc = Some r ->
    GadgetDecoder_loop Decode fuel' s acc = Some r.
Proof.
  induction fuel as [|fuel IH]; intros fuel' s acc r Hle Hrun.
  - simpl in Hrun. destruct (0 <? len s) eqn:Hpos; [discriminate|].
    destruct fuel'; simpl; rewrite Hpos; exact Hrun.
  - destruct fuel' as [|fuel']; [lia|].
    cbn [GadgetDecoder_loop] in Hrun |- *.
    destruct (0 <? len s); [|exact Hrun].
    destruct (InstructionDecoder Decode s) as [[i|] [e|]]; try exact Hrun.
    destruct (len s <=? len (Octets i)); [exact Hrun|].
    destruct (slice_from s (len (Octets i))); [|exact Hrun].
    apply (IH fuel'); [lia | exact Hrun].
Qed.

End DecoderFacts.

(** [tiny_x86] keeps the promises of [x86asm.Decode]. *)
Lemma tiny_x86_lengths src inst :
  tiny_x86 src 64 = Returns (inst, None) ->
  1 <= Len inst <= Z.of_nat (length src).
Proof.
  destruct src as [|b src]; [discriminate|].
  destruct b; simpl; try discriminate;
    try (intros H; injection H as <-; simpl; lia).
  destruct src as [|b src]; [discriminate|].
  destruct b; simpl; try discriminate.
  intros H; injection H as <-; simpl; lia.
Qed.

Lemma tiny_x86_within : Decode_within tiny_x86.
Proof. intros src inst H. apply tiny_x86_lengths in H. lia. Qed.

Lemma tiny_x86_progress : Decode_progress tiny_x86.
Proof. intros src inst H. apply tiny_x86_lengths in H. lia. Qed.

(* --------------------------------------------------------------------- *)
(** *** The claims about the decoders *)
(* --------------------------------------------------------------------- *)

(** C6.  Whatever the disassembler does on the bytes it is given,
    [InstructionDecoder] returns, and what it returns is decided by what
    the disassembler did.  When [x86asm.Decode] returns an instruction of
    a length within the capacity of the slice and no error, the result is
    the decoded instruction, whose octets are the first [Len] bytes of the
    slice and whose text is the one of the instruction, and a nil error.
    When it returns an error, the result is that error, wrapped, and no
    instruction.  When it panics, or reports a length outside the slice
    so that the slice expression panics, the panic is recovered: the
    result is the error built from the panic value, and no instruction.
    So exactly one of an instruction and an error is returned.  The
    result is a function of the slice alone: in a scan of a buffer, the
    attempts at the offsets of a suffix are what a scan of the suffix
    alone gives, whatever the bytes before it are and whatever the
    attempts on them did. *)
Theorem InstructionDecoder_contains_faults
    (Decode : list byte -> Z -> outcome (Inst * option error)) (opcodes : slice) :
  InstructionDecoder Decode opcodes =
    match Decode (elems opcodes) 64 with
    | Returns (inst, None) =>
        if decide (0 <= Len inst <= cap opcodes) then
          (Some {| Octets :=
                     {| elems := take (Z.to_nat (Len inst)) (elems opcodes ++ spare opcodes);
                        spare := drop (Z.to_nat (Len inst)) (elems opcodes ++ spare opcodes) |};
                   DisAsm := Syntax inst |}, None)
        else
          (None, Some (Errorf "Unable to decode instruction due to disassembler panic: %v"
                              "slice bounds out of range"))
    | Returns (_, Some err) =>
        (None, Some (Wrapf err "Unable to decode instruction." []))
    | Panics x =>
        (None, Some (Errorf "Unable to decode instruction due to disassembler panic: %v" x))
    end
  /\ ((exists i, InstructionDecoder Decode opcodes = (Some i, None)) \/
      (exists e, InstructionDecoder Decode opcodes = (None, Some e)))
  /\ forall (before rest : list byte) (k : nat),
       scan Decode (before ++ rest) !! (length before + k)%nat = scan Decode rest !! k.
Proof.
  split; [|split].
  - unfold InstructionDecoder, InstructionDecoder_body.
    destruct (Decode (elems opcodes) 64) as [[inst [e|]]|x]; simpl; [reflexivity| |reflexivity].
    unfold slice_to.
    destruct (decide (0 <= Len inst <= cap opcodes)) as [[H0 H1]|Hout].
    + apply Z.leb_le in H0, H1. rewrite H0, H1. reflexivity.
    + destruct (0 <=? Len inst) eqn:H0; destruct (Len inst <=? cap opcodes) eqn:H1;
        simpl; try reflexivity.
      apply Z.leb_le in H0, H1. contradiction Hout. split; assumption.
  - destruct (InstructionDecoder Decode opcodes) as [[i|] err] eqn:H.
    + apply InstructionDecoder_success in H as H'. destruct H' as [-> _]. eauto.
    + apply InstructionDecoder_nil_instruction in H as H'. destruct H' as [e ->]. eauto.
  - intros before rest k. unfold scan. rewrite !list_lookup_fmap.
    destruct (decide (k < length rest)%nat) as [Hk|Hk].
    + rewrite !lookup_seq_lt by (rewrite ?length_app; lia). simpl.
      unfold decode_at. rewrite drop_app_add. reflexivity.
    + rewrite !lookup_seq_ge by (rewrite ?length_app; lia). reflexivity.
Qed.

(** The four cases on concrete bytes: a decoded instruction, an error of
    the disassembler, a panic of the disassembler, and a length outside
    the slice. *)
Example InstructionDecoder_cases :
  InstructionDecoder tiny_x86 (of_bytes [xff; xe0; xc3]) =
    (Some (instr [xff; xe0] [xc3] "JMP RAX"), None) /\
  InstructionDecoder tiny_x86 (of_bytes [xff]) =
    (None, Some (Wrapf (ErrNew "truncated instruction") "Unable to decode instruction." [])) /\
  InstructionDecoder faulty_x86 (of_bytes [xf1; xc3]) =
    (None, Some (Errorf "Unable to decode instruction due to disassembler panic: %v"
                        "runtime error: index out of range")) /\
  InstructionDecoder overlong_x86 (of_bytes [xc3]) =
    (None, Some (Errorf "Unable to decode instruction due to disassembler panic: %v"
                        "slice bounds out of range")).
Proof. repeat split; reflexivity. Qed.

(** A disassembler fault at offset 0 and the attempt at offset 1 after
    it. *)
Example scan_after_fault :
  scan faulty_x86 [xf1; xc3] =
    [ (None, Some (Errorf "Unable to decode instruction due to disassembler panic: %v"
                          "runtime error: index out of range"));
      (Some (instr [xc3] [] "RET"), None) ].
Proof. reflexivity. Qed.

(** C8.  When [x86asm.Decode] reports lengths within the bytes it was
    given and [GadgetDecoder] returns a gadget and no error, the octets of
    the instructions of the gadget, concatenated in order, are the bytes of
    the input slice, and the octets of each instruction are the prefix of
    the bytes then remaining whose length is the one [x86asm.Decode]
    reported. *)
Theorem GadgetDecoder_octets_cover_input
    (Decode : list byte -> Z -> outcome (Inst * option error))
    (Hwithin : Decode_within Decode)
    (fuel : nat) (opcodes : slice) (gadget : Gadget) :
  GadgetDecoder Decode fuel opcodes = Some (Returns (gadget, None)) ->
  concat (map octets gadget) = elems opcodes /\
  consumed_prefixes Decode (elems opcodes) gadget.
Proof.
  unfold GadgetDecoder. intros Hrun.
  apply GadgetDecoder_loop_success in Hrun as (g' & -> & Hcat & Hpre); [|exact Hwithin].
  simpl. split; assumption.
Qed.

(** Why the bound on the reported length is needed: a slice expression
    may reach past the length of a slice, up to its capacity. *)
Example GadgetDecoder_overlong_length :
  GadgetDecoder overlong_x86 1 {| elems := [xc3]; spare := [x90] |} =
    Some (Returns ([instr [xc3; x90] [] "RET"], None)).
Proof. reflexivity. Qed.

Lemma GadgetDecoder_octets_cover_input_witness :
  Decode_within tiny_x86 /\
  GadgetDecoder tiny_x86 2 {| elems := [x58; xc3]; spare := [x90] |} =
    Some (Returns ([instr [x58] [xc3; x90] "POP RAX"; instr [xc3] [x90] "RET"], None)) /\
  concat (map octets [instr [x58] [xc3; x90] "POP RAX"; instr [xc3] [x90] "RET"])
    = [x58; xc3] /\
  consumed_prefixes tiny_x86 [x58; xc3]
    [instr [x58] [xc3; x90] "POP RAX"; instr [xc3] [x90] "RET"].
Proof.
  split; [exact tiny_x86_within|].
  split; [reflexivity|].
  exact (GadgetDecoder_octets_cover_input tiny_x86 tiny_x86_within 2
           {| elems := [x58; xc3]; spare := [x90] |} _ eq_refl).
Defined.

(** C1, as the code has it.  When [x86asm.Decode] reports lengths of at
    least one byte and within the bytes it was given, [GadgetDecoder]
    returns for every slice once the fuel covers one iteration per byte,
    and it returns in one of two ways.  Either every attempt succeeded:
    the gadget holds the instructions decoded at the successive offsets
    and their octets cover the whole slice (no instruction is tested for
    being control-flow-terminating).  Or an attempt before the end of the
    slice failed: the gadget returned is nil and the error is that
    attempt's error, wrapped. *)
Theorem GadgetDecoder_decodes_whole_slice
    (Decode : list byte -> Z -> outcome (Inst * option error))
    (Hwithin : Decode_within Decode) (Hprogress : Decode_progress Decode)
    (opcodes : slice) :
  exists r,
    (forall fuel, (length (elems opcodes) <= fuel)%nat ->
       GadgetDecoder Decode fuel opcodes = Some (Returns r)) /\
    (decoded_all Decode opcodes [] r \/ failed_inside Decode opcodes r).
Proof.
  destruct (GadgetDecoder_loop_total Decode (length (elems opcodes)) Hwithin Hprogress
              opcodes [] (Nat.le_refl _)) as (r & Hrun & Hkind).
  exists r. split; [|exact Hkind].
  intros fuel Hfuel. unfold GadgetDecoder.
  exact (GadgetDecoder_loop_fuel_mono Decode _ fuel opcodes [] _ Hfuel Hrun).
Qed.

Lemma GadgetDecoder_decodes_whole_slice_witness :
  Decode_within tiny_x86 /\ Decode_progress tiny_x86 /\
  exists r,
    (forall fuel, (length (elems (of_bytes [xc3; x90])) <= fuel)%nat ->
       GadgetDecoder tiny_x86 fuel (of_bytes [xc3; x90]) = Some (Returns r)) /\
    (decoded_all tiny_x86 (of_bytes [xc3; x90]) [] r \/
     failed_inside tiny_x86 (of_bytes [xc3; x90]) r).
Proof.
  split; [exact tiny_x86_within|]. split; [exact tiny_x86_progress|].
  exact (GadgetDecoder_decodes_whole_slice tiny_x86 tiny_x86_within tiny_x86_progress
           (of_bytes [xc3; x90])).
Defined.

(** C1, as the specification words it, fails: on the bytes [c3 90] the
    code appends RET, which is control-flow-terminating, and with the slice
    not yet exhausted goes on to append NOP; a decoder that stops at the
    terminator returns RET alone. *)
Lemma GadgetDecoder_continues_past_terminator :
  GadgetDecoder tiny_x86 2 (of_bytes [xc3; x90]) =
    Some (Returns ([instr [xc3] [x90] "RET"; instr [x90] [] "NOP"], None)) /\
  is_terminator (instr [xc3] [x90] "RET") = true /\
  is_terminator (instr [x90] [] "NOP") = false /\
  GadgetDecoder_until_terminator tiny_x86 2 (of_bytes [xc3; x90]) [] =
    Some (Returns ([instr [xc3] [x90] "RET"], None)).
Proof. repeat split; reflexivity. Qed.

(* --------------------------------------------------------------------- *)
(** *** Further properties of the gadget decoder *)
(* --------------------------------------------------------------------- *)

Section GadgetDecoderProperties.

Variable Decode : list byte -> Z -> outcome (Inst * option error).

(** One iteration on a non-empty slice whose attempt succeeds, whatever
    length the disassembler reported. *)
Lemma GadgetDecoder_loop_unfold fuel s acc i :
  (0 <? len s) = true ->
  InstructionDecoder Decode s = (Some i, None) ->
  GadgetDecoder_loop Decode (S fuel) s acc =
    if decide (length (elems s) <= length (octets i))%nat
    then Some (Returns (acc ++ [i], None))
    else GadgetDecoder_loop Decode fuel (advance s (length (octets i))) (acc ++ [i]).
Proof.
  intros Hpos Hi. cbn [GadgetDecoder_loop]. rewrite Hpos, Hi.
  change (len (Octets i)) with (Z.of_nat (length (octets i))). unfold len at 1.
  destruct (decide (length (elems s) <= length (octets i))%nat) as [Hle|Hgt].
  - replace (Z.of_nat (length (elems s)) <=? Z.of_nat (length (octets i))) with true
      by (symmetry; apply Z.leb_le; lia).
    reflexivity.
  - replace (Z.of_nat (length (elems s)) <=? Z.of_nat (length (octets i))) with false
      by (symmetry; apply Z.leb_gt; lia).
    rewrite slice_from_advance by lia. reflexivity.
Qed.

Lemma GadgetDecoder_loop_empty fuel s acc :
  (0 <? len s) = false ->
  GadgetDecoder_loop Decode fuel s acc = Some (Returns (acc, None)).
Proof. intros Hpos. destruct fuel; simpl; rewrite Hpos; reflexivity. Qed.

(** Every way the loop can end.  It never panics.  It returns either the
    gadget accumulated, extended by instructions decoded at the successive
    offsets (the same ones whatever was accumulated before, and all but
    the first are what the loop returns on the rest of the slice), or nil
    and the wrapped error of an attempt inside the slice. *)
Lemma GadgetDecoder_loop_ends fuel :
  forall s acc r,
    GadgetDecoder_loop Decode fuel s acc = Some r ->
    (exists g,
       r = Returns (acc ++ g, None) /\
       decoded_from Decode s g /\
       (forall acc', GadgetDecoder_loop Decode fuel s acc' = Some (Returns (acc' ++ g, None))) /\
       match g with
       | [] => True
       | i :: g' =>
           GadgetDecoder_loop Decode fuel (advance s (length (octets i))) []
             = Some (Returns (g', None))
       end) \/
    (exists k e,
       r = Returns ([], Some (Wrapf e "Error decoding underlying instruction." [])) /\
       (k < length (elems s))%nat /\
       InstructionDecoder Decode (advance s k) = (None, Some e)).
Proof.
  assert (Hnone : forall fuel s acc, (0 <? len s) = false ->
            exists g,
              (Returns (acc, None) : outcome (Gadget * option error))
                = Returns (acc ++ g, None) /\
              decoded_from Decode s g /\
              (forall acc', GadgetDecoder_loop Decode fuel s acc'
                              = Some (Returns (acc' ++ g, None))) /\
              match g with
              | [] => True
              | i :: g' =>
                  GadgetDecoder_loop Decode fuel (advance s (length (octets i))) []
                    = Some (Returns (g', None))
              end).
  { intros fuel' s acc Hpos. exists []. rewrite app_nil_r.
    split; [reflexivity|]. split; [exact I|]. split; [|exact I].
    intros acc'. rewrite GadgetDecoder_loop_empty by exact Hpos.
    rewrite app_nil_r. reflexivity. }
  induction fuel as [|fuel IH]; intros s acc r Hrun.
  - simpl in Hrun. destruct (0 <? len s) eqn:Hpos; [discriminate|].
    injection Hrun as <-. left. apply Hnone. exact Hpos.
  - destruct (0 <? len s) eqn:Hpos.
    2:{ rewrite GadgetDecoder_loop_empty in Hrun by exact Hpos. injection Hrun as <-.
        left. apply Hnone. exact Hpos. }
    destruct (InstructionDecoder Decode s) as [[i|] err] eqn:Hi.
    + destruct (InstructionDecoder_success Decode s i err Hi) as [-> _].
      rewrite (GadgetDecoder_loop_unfold fuel s acc i Hpos Hi) in Hrun.
      destruct (decide (length (elems s) <= length (octets i))%nat) as [Hall|Hmore].
      * injection Hrun as <-. left. exists [i].
        split; [reflexivity|]. split; [split; [exact Hi | exact I]|]. split.
        -- intros acc'. rewrite (GadgetDecoder_loop_unfold fuel s acc' i Hpos Hi).
           rewrite decide_True by exact Hall. reflexivity.
        -- apply GadgetDecoder_loop_empty. unfold len, advance. simpl.
           rewrite drop_ge by exact Hall. reflexivity.
      * apply IH in Hrun as [(g & -> & Hdec & Hacc & _)|(k & e & -> & Hk & Hfail)].
        -- left. exists (i :: g). rewrite <- app_assoc.
           split; [reflexivity|]. split; [split; [exact Hi | exact Hdec]|]. split.
           ++ intros acc'. rewrite (GadgetDecoder_loop_unfold fuel s acc' i Hpos Hi).
              rewrite decide_False by exact Hmore. rewrite Hacc, <- app_assoc.
              reflexivity.
           ++ apply (GadgetDecoder_loop_fuel_mono Decode fuel (S fuel)); [lia|].
              apply (Hacc []).
        -- right. exists (length (octets i) + k)%nat, e.
           split; [reflexivity|]. split.
           ++ simpl in Hk. rewrite length_drop in Hk. lia.
           ++ unfold advance in Hfail |- *. simpl in Hfail.
              rewrite drop_drop in Hfail. exact Hfail.
    + destruct (InstructionDecoder_nil_instruction Decode s err Hi) as [e ->].
      cbn [GadgetDecoder_loop] in Hrun. rewrite Hpos, Hi in Hrun. injection Hrun as <-.
      right. exists 0%nat, e. apply len_pos_cons in Hpos.
      split; [reflexivity|]. split; [exact Hpos|].
      unfold advance. rewrite drop_0. destruct s; exact Hi.
Qed.

(** The octets of a decoded instruction are as many as the disassembler
    reported. *)
Lemma InstructionDecoder_octets_length s i :
  Decode_progress Decode ->
  InstructionDecoder Decode s = (Some i, None) ->
  (1 <= length (octets i))%nat.
Proof.
  intros Hp Hi. apply InstructionDecoder_success in Hi as (_ & inst & HD & Hr & Ho & _).
  pose proof (Hp _ _ HD) as Hone. rewrite Ho, length_take.
  unfold cap in Hr. lia.
Qed.

Lemma GadgetDecoder_loop_count fuel :
  Decode_progress Decode ->
  forall s acc g,
    GadgetDecoder_loop Decode fuel s acc = Some (Returns (g, None)) ->
    exists g', g = acc ++ g' /\
               Forall (fun i => (1 <= length (octets i))%nat) g' /\
               (length g' <= length (elems s))%nat /\
               (elems s <> [] -> g' <> []).
Proof.
  intros Hp. induction fuel as [|fuel IH]; intros s acc g Hrun.
  - simpl in Hrun. destruct (0 <? len s) eqn:Hpos; [discriminate|].
    injection Hrun as <-. exists []. rewrite app_nil_r, (len_zero_nil s Hpos).
    repeat split; [constructor | simpl; lia | done].
  - destruct (0 <? len s) eqn:Hpos.
    2:{ rewrite GadgetDecoder_loop_empty in Hrun by exact Hpos. injection Hrun as <-.
        exists []. rewrite app_nil_r, (len_zero_nil s Hpos).
        repeat split; [constructor | simpl; lia | done]. }
    destruct (InstructionDecoder Decode s) as [[i|] [e|]] eqn:Hi;
      try (cbn [GadgetDecoder_loop] in Hrun; rewrite Hpos, Hi in Hrun; discriminate).
    pose proof (InstructionDecoder_octets_length s i Hp Hi) as Hone.
    apply len_pos_cons in Hpos as Hlen.
    rewrite (GadgetDecoder_loop_unfold fuel s acc i Hpos Hi) in Hrun.
    destruct (decide (length (elems s) <= length (octets i))%nat) as [Hall|Hmore].
    + injection Hrun as <-. exists [i].
      repeat split; [repeat constructor; exact Hone | simpl; lia | done].
    + apply IH in Hrun as (g' & -> & Hall' & Hcount & _). exists (i :: g').
      rewrite <- app_assoc. repeat split; [constructor; assumption | | done].
      simpl in Hcount |- *. rewrite length_drop in Hcount. lia.
Qed.

End GadgetDecoderProperties.

(** Whatever the disassembler does, [GadgetDecoder] does not panic, and
    when it returns an error it returns no instruction with it: the gadget
    is nil, and the error is the wrapped error of a decoding attempt made
    inside the slice. *)
Theorem GadgetDecoder_no_panic_no_partial_gadget
    (Decode : list byte -> Z -> outcome (Inst * option error))
    (fuel : nat) (opcodes : slice) :
  match GadgetDecoder Decode fuel opcodes with
  | Some (Panics _) => False
  | Some (Returns (gadget, Some err)) =>
      gadget = [] /\
      exists k e,
        (k < length (elems opcodes))%nat /\
        InstructionDecoder Decode (advance opcodes k) = (None, Some e) /\
        err = Wrapf e "Error decoding underlying instruction." []
  | Some (Returns (_, None)) => True
  | None => True
  end.
Proof.
  unfold GadgetDecoder.
  destruct (GadgetDecoder_loop Decode fuel opcodes []) as [r|] eqn:Hrun; [|exact I].
  apply GadgetDecoder_loop_ends in Hrun as [(g & -> & _)|(k & e & -> & Hk & Hfail)].
  - exact I.
  - split; [reflexivity|]. exists k, e. done.
Qed.

(** Every suffix of a gadget that starts at an instruction boundary is
    itself what the decoder returns: when [GadgetDecoder] returns the
    instruction [i] followed by [rest], [i] is what the instruction
    decoder returns on the slice, and [GadgetDecoder] returns [rest] on the
    slice without the octets of [i]. *)
Theorem GadgetDecoder_tail_is_gadget
    (Decode : list byte -> Z -> outcome (Inst * option error))
    (fuel : nat) (opcodes : slice) (i : Instruction) (rest : Gadget) :
  GadgetDecoder Decode fuel opcodes = Some (Returns (i :: rest, None)) ->
  InstructionDecoder Decode opcodes = (Some i, None) /\
  GadgetDecoder Decode fuel (advance opcodes (length (octets i)))
    = Some (Returns (rest, None)).
Proof.
  unfold GadgetDecoder. intros Hrun.
  apply GadgetDecoder_loop_ends in Hrun as [(g & Hg & Hdec & _ & Htail)|(k & e & Hr & _)];
    [|discriminate].
  simpl in Hg. injection Hg as <-. destruct Hdec as [Hi _]. split; assumption.
Qed.

Lemma GadgetDecoder_tail_is_gadget_witness :
  GadgetDecoder tiny_x86 2 (of_bytes [x58; xc3]) =
    Some (Returns ([instr [x58] [xc3] "POP RAX"; instr [xc3] [] "RET"], None)) /\
  InstructionDecoder tiny_x86 (of_bytes [x58; xc3]) =
    (Some (instr [x58] [xc3] "POP RAX"), None) /\
  GadgetDecoder tiny_x86 2 (advance (of_bytes [x58; xc3]) 1) =
    Some (Returns ([instr [xc3] [] "RET"], None)).
Proof.
  split; [reflexivity|].
  exact (GadgetDecoder_tail_is_gadget tiny_x86 2 (of_bytes [x58; xc3])
           (instr [x58] [xc3] "POP RAX") [instr [xc3] [] "RET"] eq_refl).
Defined.

(** When the disassembler reports lengths of at least one byte, every
    instruction of a returned gadget holds at least one octet, a gadget
    has no more instructions than the slice has bytes, and the gadget of
    a non-empty slice is not empty. *)
Theorem GadgetDecoder_instruction_count
    (Decode : list byte -> Z -> outcome (Inst * option error))
    (Hprogress : Decode_progress Decode)
    (fuel : nat) (opcodes : slice) (gadget : Gadget) :
  GadgetDecoder Decode fuel opcodes = Some (Returns (gadget, None)) ->
  Forall (fun i => (1 <= length (octets i))%nat) gadget /\
  (length gadget <= length (elems opcodes))%nat /\
  (elems opcodes <> [] -> gadget <> []).
Proof.
  unfold GadgetDecoder. intros Hrun.
  apply GadgetDecoder_loop_count in Hrun as (g' & -> & H); [|exact Hprogress].
  exact H.
Qed.

Lemma GadgetDecoder_instruction_count_witness :
  Decode_progress tiny_x86 /\
  Forall (fun i => (1 <= length (octets i))%nat)
    [instr [xff; xe0] [] "JMP RAX"] /\
  (length [instr [xff; xe0] [] "JMP RAX"] <= length (elems (of_bytes [xff; xe0])))%nat /\
  (elems (of_bytes [xff; xe0]) <> [] -> [instr [xff; xe0] [] "JMP RAX"] <> []).
Proof.
  split; [exact tiny_x86_progress|].
  exact (GadgetDecoder_instruction_count tiny_x86 tiny_x86_progress 1
           (of_bytes [xff; xe0]) [instr [xff; xe0] [] "JMP RAX"] eq_refl).
Defined.

End Amd64.

(* ===================================================================== *)
(** ** lib/GadgetsFromProcess.go *)
(* ===================================================================== *)

Module Process.
Import Go.

(** [memaccess.MemoryRegion] *)
Record MemoryRegion : Type :=
  { Address : Z; Size : Z; Access : Z; Kind : string }.

#[export] Instance MemoryRegion_eq_dec : EqDecision MemoryRegion.
Proof. solve_decision. Defined.

(** [memaccess.NoRegionAvailable] is the zero value of the struct. *)
Definition NoRegionAvailable : MemoryRegion :=
  {| Address := 0; Size := 0; Access := 0; Kind := "" |}.

(** [disasm.Info], by the constructor that made it: [InfoInit] reads the
    memory of the running process, [InfoInitBytes] the buffer given. *)
Inductive Info : Type :=
| InfoInit (start finish : Z)
| InfoInitBytes (start finish : Z) (bytes : list byte).

(** What the function calls outside this repository: the operating
    system ([os], [syscall]), masche's [memaccess] and disasm's gadget
    search over gadgets of type [G].  A call is a function of its
    arguments: the target does not change during the enumeration. *)
Record World (G : Type) : Type :=
  { Getpid : Z;
    PtraceAttach : Z -> option error;
    PtraceDetach : Z -> option error;
    Readable : Z;
    Executable : Z;
    (** region, hard error, soft errors *)
    NextMemoryRegionAccess : Z -> Z -> Z -> MemoryRegion * option error * list error;
    (** hard error, soft errors, the bytes copied into the buffer *)
    CopyMemory : Z -> Z -> Z -> option error * list error * list byte;
    GetAllGadgets : Info -> Z -> Z -> Z -> Z -> list G * list error }.
Arguments Getpid {G} _.
Arguments PtraceAttach {G} _ _.
Arguments PtraceDetach {G} _ _.
Arguments Readable {G} _.
Arguments Executable {G} _.
Arguments NextMemoryRegionAccess {G} _ _ _ _.
Arguments CopyMemory {G} _ _ _ _.
Arguments GetAllGadgets {G} _ _ _ _ _ _.

(** The system calls and error-level log lines a run leaves behind
    (debug-level lines are left out). *)
Inductive event : Type :=
| EvPtraceAttach (pid : Z)
| EvPtraceDetach (pid : Z)
| EvLogError (withError : option error) (format : string) (arg : Z).

(** The three results: gadgets, hard error, soft errors. *)
Definition result (G : Type) : Type := list G * option error * list error.

Section GadgetsFromProcess.

Context {G : Type}.
Variable w : World G.
Variables pid maxLength : Z.

(** The [for] loop, with [pc], [allGadgets] and [softerrors] as they are at
    the start of an iteration.  One unit of fuel pays for one iteration. *)
Fixpoint regions_loop (fuel : nat) (pc : Z) (allGadgets : list G)
    (softerrors : list error) : option (result G) :=
  match fuel with
  | O => None
  | S fuel' =>
      let '(region, harderror2, softerrors2) :=
        NextMemoryRegionAccess w pid pc (Readable w + Executable w) in
      let softerrors := softerrors ++ softerrors2 in
      match harderror2 with
      | Some e =>
          Some ([], Some (Wrapf e "Error when attempting to access the next memory region for Pid %d." [pid]),
                softerrors)
      | None =>
          if decide (region = NoRegionAvailable) then Some (allGadgets, None, softerrors)
          else
            let pc := add64 (Address region) (Size region) in
            let finish := sub64 (add64 (Address region) (Size region)) 1 in
            if decide (pid = 0) then
              let '(gadgets, errs) :=
                GetAllGadgets w (InfoInit (Address region) finish) 2 maxLength 0 100 in
              regions_loop fuel' pc (allGadgets ++ gadgets) (softerrors ++ errs)
            else
              let '(harderr3, softerrors3, bytes) :=
                CopyMemory w pid (Address region) (Size region) in
              match harderr3 with
              | Some e =>
                  Some ([], Some (Wrapf e "Error when attempting to access the memory contents for Pid %d." [pid]),
                        softerrors)
              | None =>
                  let softerrors := softerrors ++ softerrors3 in
                  let '(gadgets, errs) :=
                    GetAllGadgets w (InfoInitBytes (Address region) finish bytes)
                      2 maxLength 0 100 in
                  regions_loop fuel' pc (allGadgets ++ gadgets) (softerrors ++ errs)
              end
      end
  end.

(** The deferred function.  It calls [PtraceDetach] and, when that fails,
    writes a log line with [err], the variable the attach assigned (nil
    once the function got this far); it has no access to the results. *)
Definition deferred_detach (clearpid : Z) (err : option error) : list event :=
  EvPtraceDetach clearpid ::
  match PtraceDetach w clearpid with
  | Some detachErr =>
      [EvLogError err
         "Unable to deteach Ropoly's PTrace from pid %d. This can lead to resource leaks. Beware."
         clearpid]
  | None => []
  end.

Definition GadgetsFromProcess (fuel : nat) : option (result G * list event) :=
  if decide (pid <> Getpid w) then
    match PtraceAttach w pid with
    | Some err =>
        Some (([], Some (Wrapf err "Error when attempting to PtraceAttach to Pid %d from Ropoly." [pid]), []),
              [EvPtraceAttach pid])
    | None =>
        r ← regions_loop fuel 0 [] [];
        Some (r, EvPtraceAttach pid :: deferred_detach pid None)
    end
  else
    r ← regions_loop fuel 0 [] [];
    Some (r, []).

(** The address one past a region, where the next search starts, and the
    address of its last byte. *)
Definition next_pc (region : MemoryRegion) : Z :=
  add64 (Address region) (Size region).
Definition last_byte (region : MemoryRegion) : Z :=
  sub64 (add64 (Address region) (Size region)) 1.

(** [region_read region h softs gs]: reading the bytes of [region] and
    searching them gives the hard error [h] (already wrapped), the soft
    errors [softs] and the gadgets [gs].  The failed copies described are
    those that report their hard error alone, with no soft error beside
    it. *)
Inductive region_read (region : MemoryRegion)
  : option error -> list error -> list G -> Prop :=
| read_self gs errs :
    pid = 0 ->
    GetAllGadgets w (InfoInit (Address region) (last_byte region)) 2 maxLength 0 100
      = (gs, errs) ->
    region_read region None errs gs
| read_copy softerrors3 bytes gs errs :
    pid <> 0 ->
    CopyMemory w pid (Address region) (Size region) = (None, softerrors3, bytes) ->
    GetAllGadgets w (InfoInitBytes (Address region) (last_byte region) bytes)
      2 maxLength 0 100 = (gs, errs) ->
    region_read region None (softerrors3 ++ errs) gs
| read_fails e bytes :
    pid <> 0 ->
    CopyMemory w pid (Address region) (Size region) = (Some e, [], bytes) ->
    region_read region
      (Some (Wrapf e "Error when attempting to access the memory contents for Pid %d." [pid]))
      [] [].

(** [walk pc gs h softs]: the regions found from [pc] on, each search
    starting one past the region before, were read one after the other
    with gadgets [gs] and soft errors [softs] (those of the search for the
    next region included), until no region was left ([h] is nil), or the
    search for the next region or the reading of a region failed with the
    hard error [h]. *)
Inductive walk : Z -> list G -> option error -> list error -> Prop :=
| walk_end pc softerrors2 :
    NextMemoryRegionAccess w pid pc (Readable w + Executable w)
      = (NoRegionAvailable, None, softerrors2) ->
    walk pc [] None softerrors2
| walk_next_fails pc region e softerrors2 :
    NextMemoryRegionAccess w pid pc (Readable w + Executable w)
      = (region, Some e, softerrors2) ->
    walk pc []
      (Some (Wrapf e "Error when attempting to access the next memory region for Pid %d." [pid]))
      softerrors2
| walk_read_fails pc region softerrors2 e :
    NextMemoryRegionAccess w pid pc (Readable w + Executable w)
      = (region, None, softerrors2) ->
    region <> NoRegionAvailable ->
    region_read region (Some e) [] [] ->
    walk pc [] (Some e) softerrors2
| walk_region pc region softerrors2 softs gs gs' h softs' :
    NextMemoryRegionAccess w pid pc (Readable w + Executable w)
      = (region, None, softerrors2) ->
    region <> NoRegionAvailable ->
    region_read region None softs gs ->
    walk (next_pc region) gs' h softs' ->
    walk pc (gs ++ gs') h (softerrors2 ++ softs ++ softs').

(** What the caller gets after a walk: the gadgets only when there is no
    hard error. *)
Definition returned (gs : list G) (h : option error) (softs : list error) : result G :=
  (match h with None => gs | Some _ => [] end, h, softs).

End GadgetsFromProcess.

(** The same world with another [PtraceDetach]. *)
Definition with_PtraceDetach {G} (w : World G) (d : Z -> option error) : World G :=
  {| Getpid := Getpid w;
     PtraceAttach := PtraceAttach w;
     PtraceDetach := d;
     Readable := Readable w;
     Executable := Executable w;
     NextMemoryRegionAccess := NextMemoryRegionAccess w;
     CopyMemory := CopyMemory w;
     GetAllGadgets := GetAllGadgets w |}.

(** A target with two executable regions, for running the definitions:
    [text] at 0x1000 and [plt] at 0x2000.  Gadgets are named by their
    address; the search finds one at the start of the region it is given.
    [copy_text] is what copying the bytes of [text] gives; [detach] is what
    detaching gives. *)
Definition text : MemoryRegion :=
  {| Address := 4096; Size := 16; Access := 5; Kind := "/bin/target" |}.
Definition plt : MemoryRegion :=
  {| Address := 8192; Size := 16; Access := 5; Kind := "/lib/libc.so" |}.

Definition two_regions (copy_text : option error * list error * list byte)
    (detach : option error) : World Z :=
  {| Getpid := 100;
     PtraceAttach := fun _ => None;
     PtraceDetach := fun _ => detach;
     Readable := 1;
     Executable := 4;
     NextMemoryRegionAccess := fun _ pc _ =>
       if pc <=? 4096 then (text, None, [])
       else if pc <=? 8192 then (plt, None, [])
       else (NoRegionAvailable, None, []);
     CopyMemory := fun _ address _ =>
       if address =? 4096 then copy_text else (None, [], [xc3]);
     GetAllGadgets := fun info _ _ _ _ =>
       match info with
       | InfoInit start _ => ([start], [])
       | InfoInitBytes start _ _ => ([start], [])
       end |}.

Definition EIO : error := ErrNew "input/output error".
Definition ESRCH : error := ErrNew "no such process".
Definition partial_read : error := ErrNew "short read".

(* --------------------------------------------------------------------- *)
(** *** Facts about the enumeration *)
(* --------------------------------------------------------------------- *)

Section EnumerationFacts.

Context {G : Type}.
Variable w : World G.
Variables pid maxLength : Z.

(** A walk is what the loop does, given fuel for its iterations. *)
Lemma regions_loop_walk pc gs h softs :
  walk w pid maxLength pc gs h softs ->
  exists n, forall fuel, (n <= fuel)%nat ->
    forall allGadgets softerrors,
      regions_loop w pid maxLength fuel pc allGadgets softerrors =
        Some (match h with None => allGadgets ++ gs | Some _ => [] end,
              h, softerrors ++ softs).
Proof.
  induction 1 as [pc se Hnext|pc region e se Hnext|pc region se e Hnext Hne Hread
                 |pc region se softs gs gs' h softs' Hnext Hne Hread Hwalk [n IH]].
  - exists 1%nat. intros [|fuel] Hfuel acc softerrors; [lia|].
    simpl. rewrite Hnext. rewrite decide_True by reflexivity.
    rewrite app_nil_r. reflexivity.
  - exists 1%nat. intros [|fuel] Hfuel acc softerrors; [lia|].
    simpl. rewrite Hnext. reflexivity.
  - exists 1%nat. intros [|fuel] Hfuel acc softerrors; [lia|].
    simpl. rewrite Hnext. rewrite decide_False by exact Hne.
    inversion Hread as [| |e0 bytes Hpid Hcopy]; subst.
    rewrite decide_False by exact Hpid. rewrite Hcopy. reflexivity.
  - exists (S n). intros [|fuel] Hfuel acc softerrors; [lia|].
    simpl. rewrite Hnext. rewrite decide_False by exact Hne.
    inversion Hread as [gs0 errs Hpid Hsearch|se3 bytes gs0 errs Hpid Hcopy Hsearch|]; subst.
    + rewrite decide_True by reflexivity.
      unfold last_byte in Hsearch. rewrite Hsearch.
      unfold next_pc in IH. rewrite IH by lia.
      destruct h; rewrite <- ?app_assoc; reflexivity.
    + rewrite decide_False by exact Hpid. rewrite Hcopy.
      unfold last_byte in Hsearch. rewrite Hsearch.
      unfold next_pc in IH. rewrite IH by lia.
      destruct h; rewrite <- ?app_assoc; reflexivity.
Qed.

End EnumerationFacts.

(* --------------------------------------------------------------------- *)
(** *** The claims about the enumeration *)
(* --------------------------------------------------------------------- *)

(** C2, as the code has it.  For the own process or after a successful
    attach, a walk over the regions of the target is what the function
    returns once the fuel covers its iterations.  The soft errors of the
    searches for a region, of the copies that succeed and of the gadget
    searches are returned in the order they arose, also when a hard error
    ends the traversal.  The gadgets of the regions read are returned only
    when no hard error arose: a hard error of the search for the next
    region or of the copy of a region ends the traversal there, and nil is
    returned in place of the gadgets.  A walk describes a failing copy
    only when it reports no soft error beside its hard error. *)
Theorem GadgetsFromProcess_accumulates_until_hard_error
    {G : Type} (w : World G) (pid maxLength : Z)
    (gs : list G) (h : option error) (softs : list error) :
  pid = Getpid w \/ PtraceAttach w pid = None ->
  walk w pid maxLength 0 gs h softs ->
  exists n, forall fuel, (n <= fuel)%nat ->
    fst <$> GadgetsFromProcess w pid maxLength fuel = Some (returned gs h softs).
Proof.
  intros Hpid Hwalk.
  destruct (regions_loop_walk w pid maxLength 0 gs h softs Hwalk) as [n Hn].
  exists n. intros fuel Hfuel. specialize (Hn fuel Hfuel [] []).
  unfold GadgetsFromProcess, returned.
  destruct (decide (pid <> Getpid w)) as [Hother|Hself].
  - destruct Hpid as [Hpid|Hattach]; [contradiction|].
    rewrite Hattach, Hn. reflexivity.
  - rewrite Hn. reflexivity.
Qed.

Lemma GadgetsFromProcess_accumulates_until_hard_error_witness :
  (7 = Getpid (two_regions (None, [partial_read], [x58; xc3]) None) \/
   PtraceAttach (two_regions (None, [partial_read], [x58; xc3]) None) 7 = None) /\
  walk (two_regions (None, [partial_read], [x58; xc3]) None) 7 2 0
    [4096; 8192] None [partial_read] /\
  exists n, forall fuel, (n <= fuel)%nat ->
    fst <$> GadgetsFromProcess (two_regions (None, [partial_read], [x58; xc3]) None) 7 2 fuel
      = Some (returned [4096; 8192] None [partial_read]).
Proof.
  assert (Hpid : 7 = Getpid (two_regions (None, [partial_read], [x58; xc3]) None) \/
                 PtraceAttach (two_regions (None, [partial_read], [x58; xc3]) None) 7 = None)
    by (right; reflexivity).
  assert (Hwalk : walk (two_regions (None, [partial_read], [x58; xc3]) None) 7 2 0
                    [4096; 8192] None [partial_read]).
  { apply (walk_region _ 7 2 0 text [] [partial_read] [4096] [8192] None []);
      [reflexivity | discriminate | | ].
    - apply (read_copy _ 7 2 text [partial_read] [x58; xc3] [4096] []);
        [discriminate | reflexivity | reflexivity].
    - apply (walk_region _ 7 2 (next_pc text) plt [] [] [8192] [] None []);
        [reflexivity | discriminate | | ].
      + apply (read_copy _ 7 2 plt [] [xc3] [8192] []);
          [discriminate | reflexivity | reflexivity].
      + apply walk_end. reflexivity. }
  split; [exact Hpid|]. split; [exact Hwalk|].
  exact (GadgetsFromProcess_accumulates_until_hard_error _ 7 2 _ _ _ Hpid Hwalk).
Defined.

(** C2, as the specification words it, fails: a region whose bytes cannot
    be copied ends the traversal.  Here [text] cannot be read; [plt], the
    region after it, can be read and holds a gadget, and the function
    returns the hard error and no gadget, however much fuel it has. *)
Lemma GadgetsFromProcess_aborts_at_unreadable_region :
  NextMemoryRegionAccess (two_regions (Some EIO, [], []) None) 7 (next_pc text) 5
    = (plt, None, []) /\
  CopyMemory (two_regions (Some EIO, [], []) None) 7 (Address plt) (Size plt)
    = (None, [], [xc3]) /\
  GetAllGadgets (two_regions (Some EIO, [], []) None)
    (InfoInitBytes (Address plt) (last_byte plt) [xc3]) 2 2 0 100 = ([8192], []) /\
  forall fuel,
    fst <$> GadgetsFromProcess (two_regions (Some EIO, [], []) None) 7 2 (S fuel) =
      Some ([], Some (Wrapf EIO "Error when attempting to access the memory contents for Pid %d." [7]),
            []).
Proof. repeat split. Qed.

(** C3, as the code has it.  When the target is another process and the
    attach succeeds, every return of the function, with or without a hard
    error, comes after exactly one [PtraceDetach] of the target, which
    follows the attach.  A failed detach adds a log line and nothing else:
    the three results are those of the loop, and they are the same
    whatever [PtraceDetach] returns. *)
Theorem GadgetsFromProcess_detaches_on_every_return
    {G : Type} (w : World G) (pid maxLength : Z) (fuel : nat)
    (r : result G) (evs : list event) :
  pid <> Getpid w ->
  PtraceAttach w pid = None ->
  GadgetsFromProcess w pid maxLength fuel = Some (r, evs) ->
  evs = [EvPtraceAttach pid; EvPtraceDetach pid] ++
        match PtraceDetach w pid with
        | Some _ =>
            [EvLogError None
               "Unable to deteach Ropoly's PTrace from pid %d. This can lead to resource leaks. Beware."
               pid]
        | None => []
        end
  /\ regions_loop w pid maxLength fuel 0 [] [] = Some r
  /\ forall d,
       fst <$> GadgetsFromProcess (with_PtraceDetach w d) pid maxLength fuel = Some r.
Proof.
  intros Hother Hattach. unfold GadgetsFromProcess.
  rewrite decide_True by exact Hother. rewrite Hattach.
  destruct (regions_loop w pid maxLength fuel 0 [] []) as [r'|] eqn:Hloop; [|discriminate].
  simpl. intros H. injection H as <- <-.
  split; [reflexivity|]. split; [reflexivity|].
  intros d. simpl. rewrite decide_True by exact Hother. rewrite Hattach.
  change (regions_loop (with_PtraceDetach w d) pid maxLength fuel 0 [] [])
    with (regions_loop w pid maxLength fuel 0 [] []).
  rewrite Hloop. reflexivity.
Qed.

Lemma GadgetsFromProcess_detaches_on_every_return_witness :
  7 <> Getpid (two_regions (Some EIO, [], []) (Some ESRCH)) /\
  PtraceAttach (two_regions (Some EIO, [], []) (Some ESRCH)) 7 = None /\
  GadgetsFromProcess (two_regions (Some EIO, [], []) (Some ESRCH)) 7 2 1 =
    Some (([], Some (Wrapf EIO "Error when attempting to access the memory contents for Pid %d." [7]), []),
          [EvPtraceAttach 7; EvPtraceDetach 7;
           EvLogError None
             "Unable to deteach Ropoly's PTrace from pid %d. This can lead to resource leaks. Beware."
             7]) /\
  forall d,
    fst <$> GadgetsFromProcess
              (with_PtraceDetach (two_regions (Some EIO, [], []) (Some ESRCH)) d) 7 2 1 =
      Some ([], Some (Wrapf EIO "Error when attempting to access the memory contents for Pid %d." [7]), []).
Proof.
  assert (Hother : 7 <> Getpid (two_regions (Some EIO, [], []) (Some ESRCH)))
    by discriminate.
  split; [exact Hother|]. split; [reflexivity|]. split; [reflexivity|].
  exact (proj2 (proj2 (GadgetsFromProcess_detaches_on_every_return
                         (two_regions (Some EIO, [], []) (Some ESRCH)) 7 2 1 _ _
                         Hother eq_refl eq_refl))).
Defined.

(** C3, as the specification words it, fails: the detach of process 7
    fails, both regions are read without any soft error, and the soft
    errors returned are empty; the failure shows only in the log. *)
Lemma GadgetsFromProcess_detach_failure_not_returned :
  PtraceDetach (two_regions (None, [], [x58; xc3]) (Some ESRCH)) 7 = Some ESRCH /\
  GadgetsFromProcess (two_regions (None, [], [x58; xc3]) (Some ESRCH)) 7 2 3 =
    Some (([4096; 8192], None, []),
          [EvPtraceAttach 7; EvPtraceDetach 7;
           EvLogError None
             "Unable to deteach Ropoly's PTrace from pid %d. This can lead to resource leaks. Beware."
             7]).
Proof. split; reflexivity. Qed.

(* --------------------------------------------------------------------- *)
(** *** Further properties of the enumeration *)
(* --------------------------------------------------------------------- *)

(** The same world with another [CopyMemory]. *)
Definition with_CopyMemory {G} (w : World G)
    (c : Z -> Z -> Z -> option error * list error * list byte) : World G :=
  {| Getpid := Getpid w;
     PtraceAttach := PtraceAttach w;
     PtraceDetach := PtraceDetach w;
     Readable := Readable w;
     Executable := Executable w;
     NextMemoryRegionAccess := NextMemoryRegionAccess w;
     CopyMemory := c;
     GetAllGadgets := GetAllGadgets w |}.

Section EnumerationInvariants.

Context {G : Type}.
Variable w : World G.
Variables pid maxLength : Z.

(** What every return of the loop keeps: the soft errors it started with
    are a prefix of those returned; without a hard error the gadgets it
    started with are a prefix of those returned; with a hard error no
    gadget is returned. *)
Lemma regions_loop_invariant fuel :
  forall pc allGadgets softerrors r,
    regions_loop w pid maxLength fuel pc allGadgets softerrors = Some r ->
    softerrors `prefix_of` r.2 /\
    match r.1.2 with
    | None => allGadgets `prefix_of` r.1.1
    | Some _ => r.1.1 = []
    end.
Proof.
  induction fuel as [|fuel IH]; intros pc acc softs r Hrun; [discriminate|].
  cbn [regions_loop] in Hrun.
  destruct (NextMemoryRegionAccess w pid pc (Readable w + Executable w))
    as [[region [e|]] softerrors2].
  { injection Hrun as <-. simpl. split; [apply prefix_app_r; reflexivity | reflexivity]. }
  destruct (decide (region = NoRegionAvailable)).
  { injection Hrun as <-. simpl. split; [apply prefix_app_r; reflexivity | reflexivity]. }
  destruct (decide (pid = 0)).
  - destruct (GetAllGadgets w _ 2 maxLength 0 100) as [gadgets errs].
    apply IH in Hrun as [Hsoft Hgadgets]. split.
    + etransitivity; [|exact Hsoft]. rewrite <- app_assoc. apply prefix_app_r. reflexivity.
    + destruct (r.1.2); [exact Hgadgets|].
      etransitivity; [|exact Hgadgets]. apply prefix_app_r. reflexivity.
  - destruct (CopyMemory w pid (Address region) (Size region))
      as [[[e|] softerrors3] bytes].
    { injection Hrun as <-. simpl. split; [apply prefix_app_r; reflexivity | reflexivity]. }
    destruct (GetAllGadgets w _ 2 maxLength 0 100) as [gadgets errs].
    apply IH in Hrun as [Hsoft Hgadgets]. split.
    + etransitivity; [|exact Hsoft]. rewrite <- !app_assoc. apply prefix_app_r. reflexivity.
    + destruct (r.1.2); [exact Hgadgets|].
      etransitivity; [|exact Hgadgets]. apply prefix_app_r. reflexivity.
Qed.

End EnumerationInvariants.

(** [GadgetsFromProcess] never returns gadgets together with a hard
    error: on every return that carries a hard error (a failed attach, a
    failed search for the next region, a failed copy) the gadgets are
    nil, whatever was collected before. *)
Theorem GadgetsFromProcess_hard_error_without_gadgets
    {G : Type} (w : World G) (pid maxLength : Z) (fuel : nat)
    (r : result G) (evs : list event) :
  GadgetsFromProcess w pid maxLength fuel = Some (r, evs) ->
  is_Some (r.1.2) ->
  r.1.1 = [].
Proof.
  unfold GadgetsFromProcess. intros Hrun [e He].
  assert (Hloop : forall r', regions_loop w pid maxLength fuel 0 [] [] = Some r' ->
            r'.1.2 = Some e -> r'.1.1 = []).
  { intros r' Hr' He'. apply regions_loop_invariant in Hr' as [_ Hg].
    rewrite He' in Hg. exact Hg. }
  destruct (decide (pid <> Getpid w)).
  - destruct (PtraceAttach w pid).
    + injection Hrun as <- _. reflexivity.
    + destruct (regions_loop w pid maxLength fuel 0 [] []) as [r'|] eqn:Hr'; [|discriminate].
      simpl in Hrun. injection Hrun as <- _. exact (Hloop r' eq_refl He).
  - destruct (regions_loop w pid maxLength fuel 0 [] []) as [r'|] eqn:Hr'; [|discriminate].
    simpl in Hrun. injection Hrun as <- _. exact (Hloop r' eq_refl He).
Qed.

(** [plt] cannot be read, after [text] was read and searched. *)
Definition unreadable_plt : World Z :=
  with_CopyMemory (two_regions (None, [], [x58; xc3]) None)
    (fun _ address _ => if address =? 4096 then (None, [], [x58; xc3])
                        else (Some EIO, [], [])).

Lemma GadgetsFromProcess_hard_error_without_gadgets_witness :
  GadgetsFromProcess unreadable_plt 7 2 2 =
    Some (([], Some (Wrapf EIO "Error when attempting to access the memory contents for Pid %d." [7]), []),
          [EvPtraceAttach 7; EvPtraceDetach 7]) /\
  ([] : list Z) = [].
Proof.
  split; [reflexivity|].
  exact (GadgetsFromProcess_hard_error_without_gadgets unreadable_plt 7 2 2
           ([], Some (Wrapf EIO "Error when attempting to access the memory contents for Pid %d." [7]), [])
           [EvPtraceAttach 7; EvPtraceDetach 7] eq_refl
           (ex_intro _ _ eq_refl)).
Defined.

(** For pid 0 the bytes of a region are never copied: the regions are
    searched in the memory of the running process, and what the function
    returns and does is the same whatever [CopyMemory] would return. *)
Theorem GadgetsFromProcess_pid_zero_reads_in_process
    {G : Type} (w : World G)
    (c : Z -> Z -> Z -> option error * list error * list byte)
    (maxLength : Z) (fuel : nat) :
  GadgetsFromProcess (with_CopyMemory w c) 0 maxLength fuel =
  GadgetsFromProcess w 0 maxLength fuel.
Proof.
  assert (Hloop : forall fuel pc allGadgets softerrors,
            regions_loop (with_CopyMemory w c) 0 maxLength fuel pc allGadgets softerrors =
            regions_loop w 0 maxLength fuel pc allGadgets softerrors).
  { clear fuel. induction fuel as [|fuel IH]; intros pc acc softs; [reflexivity|].
    cbn [regions_loop]. cbn [with_CopyMemory NextMemoryRegionAccess Readable Executable
                              GetAllGadgets].
    destruct (NextMemoryRegionAccess w 0 pc (Readable w + Executable w))
      as [[region [e|]] softerrors2]; [reflexivity|].
    destruct (decide (region = NoRegionAvailable)); [reflexivity|].
    rewrite decide_True by reflexivity.
    destruct (GetAllGadgets w _ 2 maxLength 0 100) as [gadgets errs]. apply IH. }
  unfold GadgetsFromProcess. rewrite Hloop. reflexivity.
Qed.

End Process.

(* ===================================================================== *)
(** ** lib/Fingerprint.go *)
(* ===================================================================== *)

Module Fingerprints.
Import Go.

Abbreviation MemoryRegion := Process.MemoryRegion.
Abbreviation Sig := string (only parsing).
(** [disasm.Ptr], an unsigned 64-bit address. *)
Abbreviation Ptr := Z (only parsing).

Definition is_u64 (a : Z) : Prop := 0 <= a < two64.

(** The fields of a [Gadget] the builder reads. *)
Record Gadget : Type := { Signature : Sig; Address : Ptr }.

(** The map of a fingerprint holds pointers to [FingerprintRegion]s.  A
    kind bound to a nil pointer and a signature bound to the nil slice are
    not modelled: the builder stores neither, and both compare equal to
    nil as an absent key does. *)
Record FingerprintRegion : Type :=
  { Region : MemoryRegion; Gadgets : gmap Sig (list Ptr) }.

(** [CRegion] is the field [Region] of the comparison. *)
Record FingerprintRegionComparison : Type :=
  { CRegion : MemoryRegion;
    Displacement : Z;
    GadgetDisplacements : gmap Ptr (list Z);
    AddedGadgets : gmap Sig (list Ptr) }.

Record FingerprintComparison : Type :=
  { AddedRegions : list MemoryRegion;
    RemovedRegions : list MemoryRegion;
    SharedRegionComparisons : list FingerprintRegionComparison }.

(* --------------------------------------------------------------------- *)
(** *** The builder *)
(* --------------------------------------------------------------------- *)

(** [OperateOnGadgets] drives the two closures it is given; a run of it is
    the sequence of its calls to them. *)
Inductive callback : Type :=
| OnRegion (region : MemoryRegion)
| OnGadget (gadget : Gadget).

(** The variables the closures share: the map and [section]. *)
Definition builder : Type := gmap string FingerprintRegion * MemoryRegion.

(** The closure called for a gadget, with [section] as it stands. *)
Definition add_gadget (fingerprint : gmap string FingerprintRegion)
    (section : MemoryRegion) (gadget : Gadget) : gmap string FingerprintRegion :=
  let fingerprint :=
    match fingerprint !! Process.Kind section with
    | None =>
        <[Process.Kind section := {| Region := section; Gadgets := ∅ |}]> fingerprint
    | Some _ => fingerprint
    end in
  match fingerprint !! Process.Kind section with
  | Some fr =>
      <[Process.Kind section :=
          {| Region := Region fr;
             Gadgets :=
               <[Signature gadget :=
                   default [] (Gadgets fr !! Signature gadget) ++ [Address gadget]]>
                 (Gadgets fr) |}]> fingerprint
  | None => fingerprint
  end.

Definition on_callback (st : builder) (c : callback) : builder :=
  match c with
  | OnRegion region => (st.1, region)
  | OnGadget gadget => (add_gadget st.1 st.2 gadget, st.2)
  end.

(** [Fingerprint], given the run of [OperateOnGadgets] on the search
    specification: its calls, its hard error and its soft errors.
    [section] starts as the zero value. *)
Definition Fingerprint (run : list callback * option error * list error)
  : gmap string FingerprintRegion * option error * list error :=
  let '(calls, harderror, softerrors) := run in
  ((foldl on_callback (∅, Process.NoRegionAvailable) calls).1, harderror, softerrors).

(** The (region, gadget) pairs of a run: each gadget with the region
    announced last before it. *)
Fixpoint emissions (section : MemoryRegion) (calls : list callback)
  : list (MemoryRegion * Gadget) :=
  match calls with
  | [] => []
  | OnRegion region :: calls => emissions region calls
  | OnGadget gadget :: calls => (section, gadget) :: emissions section calls
  end.

Definition of_kind (kind : string) (pairs : list (MemoryRegion * Gadget))
  : list (MemoryRegion * Gadget) :=
  filter (fun p => Process.Kind p.1 = kind) pairs.

Definition addresses_of (sig : Sig) (pairs : list (MemoryRegion * Gadget)) : list Ptr :=
  map (fun p => Address p.2) (filter (fun p => Signature p.2 = sig) pairs).

(** A Go map holds no key for a list that was never appended to. *)
Definition nonempty {A} (l : list A) : option (list A) :=
  match l with [] => None | _ => Some l end.

(* --------------------------------------------------------------------- *)
(** *** The comparator *)
(* --------------------------------------------------------------------- *)

(** A [range] over a map visits every key once, in an order the language
    leaves open: [ranges m keys] says that [keys] is such an order. *)
Definition ranges {K} `{Countable K} {V} (m : gmap K V) (keys : list K) : Prop :=
  NoDup keys /\ forall k, k ∈ keys <-> is_Some (m !! k).

(** The inner loops: [offsets[j] = uint64(newAddresses[j] - oldAddress)]. *)
Definition offsets_from (newAddresses : list Ptr) (oldAddress : Ptr) : list Z :=
  map (fun newAddress => sub64 newAddress oldAddress) newAddresses.

(** One iteration of the loop over [old.Gadgets]: reading an absent
    signature of [new.Gadgets] gives the nil slice. *)
Definition record_sig (oldGadgets newGadgets : gmap Sig (list Ptr))
    (displacements : gmap Ptr (list Z)) (sig : Sig) : gmap Ptr (list Z) :=
  let addresses := default [] (oldGadgets !! sig) in
  let newAddresses := default [] (newGadgets !! sig) in
  foldl (fun d oldAddress => <[oldAddress := offsets_from newAddresses oldAddress]> d)
        displacements addresses.

(** One iteration of the loop over [new.Gadgets]. *)
Definition record_added (oldGadgets newGadgets : gmap Sig (list Ptr))
    (added : gmap Sig (list Ptr)) (sig : Sig) : gmap Sig (list Ptr) :=
  match oldGadgets !! sig with
  | None => <[sig := default [] (newGadgets !! sig)]> added
  | Some _ => added
  end.

(** [compareFingerprintRegions], ranging over the signatures of
    [old.Gadgets] in the order [sigsOld] and over those of [new.Gadgets] in
    the order [sigsNew]. *)
Definition compareFingerprintRegions (sigsOld sigsNew : list Sig)
    (old new : FingerprintRegion) : FingerprintRegionComparison :=
  {| CRegion := Region old;
     Displacement := sub64 (Process.Address (Region new)) (Process.Address (Region old));
     GadgetDisplacements := foldl (record_sig (Gadgets old) (Gadgets new)) ∅ sigsOld;
     AddedGadgets := foldl (record_added (Gadgets old) (Gadgets new)) ∅ sigsNew |}.

(** [compareFingerprints], ranging over [old] in the order [kindsOld] and
    over [new] in the order [kindsNew]; [sigs kind] gives the two orders
    of the comparison of the regions of [kind]. *)
Definition compare_old (sigs : string -> list Sig * list Sig)
    (old new : gmap string FingerprintRegion)
    (ret : FingerprintComparison) (regionName : string) : FingerprintComparison :=
  match old !! regionName with
  | None => ret
  | Some mapping =>
      match new !! regionName with
      | None =>
          {| AddedRegions := AddedRegions ret;
             RemovedRegions := RemovedRegions ret ++ [Region mapping];
             SharedRegionComparisons := SharedRegionComparisons ret |}
      | Some newRegion =>
          {| AddedRegions := AddedRegions ret;
             RemovedRegions := RemovedRegions ret;
             SharedRegionComparisons :=
               SharedRegionComparisons ret ++
               [compareFingerprintRegions (sigs regionName).1 (sigs regionName).2
                  mapping newRegion] |}
      end
  end.

Definition compare_new (old new : gmap string FingerprintRegion)
    (ret : FingerprintComparison) (regionName : string) : FingerprintComparison :=
  match new !! regionName with
  | None => ret
  | Some mapping =>
      match old !! regionName with
      | None =>
          {| AddedRegions := AddedRegions ret ++ [Region mapping];
             RemovedRegions := RemovedRegions ret;
             SharedRegionComparisons := SharedRegionComparisons ret |}
      | Some _ => ret
      end
  end.

Definition compareFingerprints (kindsOld kindsNew : list string)
    (sigs : string -> list Sig * list Sig)
    (old new : gmap string FingerprintRegion) : FingerprintComparison :=
  foldl (compare_new old new)
    (foldl (compare_old sigs old new)
       {| AddedRegions := []; RemovedRegions := []; SharedRegionComparisons := [] |}
       kindsOld)
    kindsNew.

(** The number of zero entries of a vector. *)
Definition zeros (v : list Z) : nat := length (filter (fun x => x = 0) v).

(** The entries of a displacement map under the given addresses: what
    the map holds for them, one entry per key, and the number of offsets
    in these entries. *)
Definition recorded_for (addresses : list Ptr) (displacements : gmap Ptr (list Z))
  : list (Ptr * list Z) :=
  map_to_list (filter (fun entry => entry.1 ∈ addresses) displacements).

Definition offsets_recorded (entries : list (Ptr * list Z)) : nat :=
  sum_list_with (fun entry => length entry.2) entries.

(** What the comparison of a region with itself should look like: the
    region's metadata, displacement zero, exactly one zero entry in every
    vector, and a vector for every address of every signature. *)
Definition self_compared (fr : FingerprintRegion) (c : FingerprintRegionComparison) : Prop :=
  CRegion c = Region fr /\
  Displacement c = 0 /\
  (forall a v, GadgetDisplacements c !! a = Some v -> zeros v = 1%nat) /\
  (forall sig addresses a,
     Gadgets fr !! sig = Some addresses -> a ∈ addresses ->
     is_Some (GadgetDisplacements c !! a)).

(** The addresses of a fingerprint are 64-bit values, and no signature
    lists an address twice. *)
Definition distinct_addresses (f : gmap string FingerprintRegion) : Prop :=
  forall kind fr sig addresses,
    f !! kind = Some fr -> Gadgets fr !! sig = Some addresses ->
    NoDup addresses /\ Forall is_u64 addresses.

(** The region [old] with the signature [sig] called [sig'], and an order
    of ranging over its signatures renamed in the same way. *)
Definition rename_sig (old : FingerprintRegion) (sig sig' : Sig) : FingerprintRegion :=
  {| Region := Region old;
     Gadgets :=
       match Gadgets old !! sig with
       | Some addresses => <[sig' := addresses]> (delete sig (Gadgets old))
       | None => Gadgets old
       end |}.

Definition rename_in (sig sig' : Sig) (sigs : list Sig) : list Sig :=
  map (fun s => if decide (s = sig) then sig' else s) sigs.

(** The addresses a signature lists in a region. *)
Definition lists (oldGadgets : gmap Sig (list Ptr)) (sig : Sig) (a : Ptr) : Prop :=
  a ∈ default [] (oldGadgets !! sig).

#[export] Instance lists_dec oldGadgets (sig : Sig) (a : Ptr) :
  Decision (lists oldGadgets sig a).
Proof. unfold lists. apply _. Defined.

(** The gadgets of the bytes [c3 c3] at 0x1000, and of the same bytes at
    0x2000: RET at both offsets, and the two-instruction gadget at the
    first.  [without_pair] lacks the two-instruction gadget. *)
Definition at_4096 : FingerprintRegion :=
  {| Region := Process.text;
     Gadgets := <["RET" := [4096; 4097]]> (<["RET; RET" := [4096]]> ∅) |}.

Definition at_8192 : FingerprintRegion :=
  {| Region := Process.plt;
     Gadgets := <["RET" := [8192; 8193]]> (<["RET; RET" := [8192]]> ∅) |}.

Definition without_pair : FingerprintRegion :=
  {| Region := Process.plt; Gadgets := <["RET" := [8192; 8193]]> ∅ |}.

(** A second mapping of the binary of [text], at 0x2000. *)
Definition second_mapping : MemoryRegion :=
  {| Process.Address := 8192; Process.Size := 16; Process.Access := 5;
     Process.Kind := "/bin/target" |}.

(** A region with a single signature. *)
Definition only_ret (region : MemoryRegion) (addresses : list Ptr) : FingerprintRegion :=
  {| Region := region; Gadgets := <["RET" := addresses]> ∅ |}.

(** Two signatures that share no address: the gadgets of [58 c3] and of
    further [c3] bytes, at 0x1000 and moved to 0x2000 with one RET more. *)
Definition pop_ret_4096 : FingerprintRegion :=
  {| Region := Process.text;
     Gadgets := <["RET" := [4097; 4100]]> (<["POP RAX; RET" := [4096]]> ∅) |}.

Definition pop_ret_8192 : FingerprintRegion :=
  {| Region := Process.plt;
     Gadgets := <["RET" := [8193; 8196; 8200]]> (<["POP RAX; RET" := [8192]]> ∅) |}.

(** [at_4096] with the two-instruction gadget also at 0x1388, an address
    that RET does not list. *)
Definition with_second_pair : FingerprintRegion :=
  {| Region := Process.text;
     Gadgets := <["RET" := [4096; 4097]]> (<["RET; RET" := [4096; 5000]]> ∅) |}.

(** What the first loop appends for a kind when a fingerprint is compared
    with itself. *)
Definition self_comparison (sigs : string -> list Sig * list Sig)
    (f : gmap string FingerprintRegion) (kind : string)
  : option FingerprintRegionComparison :=
  fr ← f !! kind;
  Some (compareFingerprintRegions (sigs kind).1 (sigs kind).2 fr fr).

(** A fingerprint with the single region [text] and the single signature
    RET, and the only orders of ranging there are. *)
Definition one_region (addresses : list Ptr) : gmap string FingerprintRegion :=
  <["/bin/target" := only_ret Process.text addresses]> ∅.

Definition ret_only (kind : string) : list Sig * list Sig := (["RET"], ["RET"]).

(** The map after the pairs of a run, one call of the gadget closure per
    pair. *)
Definition built (fingerprint : gmap string FingerprintRegion)
    (pairs : list (MemoryRegion * Gadget)) : gmap string FingerprintRegion :=
  foldl (fun fp p => add_gadget fp p.1 p.2) fingerprint pairs.

(** [describes kind pairs o]: [o] is the entry that the pairs of [kind]
    call for: none when there is no such pair; else the region of the
    first of them, with the addresses of each signature in the order of
    the pairs. *)
Definition describes (kind : string) (pairs : list (MemoryRegion * Gadget))
    (o : option FingerprintRegion) : Prop :=
  match of_kind kind pairs with
  | [] => o = None
  | first :: _ =>
      exists fr, o = Some fr /\ Region fr = first.1 /\
                 forall sig, Gadgets fr !! sig =
                               nonempty (addresses_of sig (of_kind kind pairs))
  end.

(** The metadata the second loop appends for a kind of [new], and the
    metadata the first loop appends to the removed regions for a kind of
    [old]. *)
Definition added_region (old new : gmap string FingerprintRegion) (kind : string)
  : option MemoryRegion :=
  mapping ← new !! kind;
  match old !! kind with None => Some (Region mapping) | Some _ => None end.

Definition removed_region (old new : gmap string FingerprintRegion) (kind : string)
  : option MemoryRegion :=
  mapping ← old !! kind;
  match new !! kind with None => Some (Region mapping) | Some _ => None end.

(* --------------------------------------------------------------------- *)
(** *** Facts about the displacement map *)
(* --------------------------------------------------------------------- *)

Section Displacements.

Variables oldGadgets newGadgets : gmap Sig (list Ptr).

Lemma record_addresses_lookup (newAddresses : list Ptr) (addresses : list Ptr) :
  forall (d : gmap Ptr (list Z)) (a : Ptr),
    foldl (fun d oldAddress => <[oldAddress := offsets_from newAddresses oldAddress]> d)
          d addresses !! a =
      if decide (a ∈ addresses) then Some (offsets_from newAddresses a) else d !! a.
Proof.
  induction addresses as [|x l IH]; intros d a; cbn [foldl].
  - rewrite decide_False by apply not_elem_of_nil. reflexivity.
  - rewrite IH. destruct (decide (a ∈ l)) as [Hin|Hnin].
    + rewrite decide_True by (right; exact Hin). reflexivity.
    + destruct (decide (x = a)) as [->|Hne].
      * rewrite lookup_insert_eq. rewrite decide_True by left. reflexivity.
      * rewrite lookup_insert_ne by exact Hne.
        rewrite decide_False; [reflexivity|].
        intros [Heq|Hin]%elem_of_cons; [congruence|contradiction].
Qed.

Lemma record_sig_lookup (d : gmap Ptr (list Z)) (sig : Sig) (a : Ptr) :
  record_sig oldGadgets newGadgets d sig !! a =
    if decide (lists oldGadgets sig a)
    then Some (offsets_from (default [] (newGadgets !! sig)) a)
    else d !! a.
Proof. unfold record_sig, lists. apply record_addresses_lookup. Qed.

(** A vector in the map was written for some signature that lists its
    address. *)
Lemma displacements_lookup_Some (sigs : list Sig) :
  forall (d : gmap Ptr (list Z)) (a : Ptr) (v : list Z),
    foldl (record_sig oldGadgets newGadgets) d sigs !! a = Some v ->
    d !! a = Some v \/
    exists sig, sig ∈ sigs /\ lists oldGadgets sig a /\
                v = offsets_from (default [] (newGadgets !! sig)) a.
Proof.
  induction sigs as [|sig0 sigs IH]; intros d a v; simpl; [tauto|].
  intros [Hd|(sig & Hin & Hl & ->)]%IH.
  - rewrite record_sig_lookup in Hd. destruct (decide (lists oldGadgets sig0 a)) as [Hl|_].
    + injection Hd as <-. right. exists sig0. split; [left|done].
    + tauto.
  - right. exists sig. split; [right; exact Hin|done].
Qed.

(** Signatures that do not list an address leave its vector alone. *)
Lemma displacements_untouched (sigs : list Sig) :
  forall (d : gmap Ptr (list Z)) (a : Ptr),
    (forall sig, sig ∈ sigs -> ~ lists oldGadgets sig a) ->
    foldl (record_sig oldGadgets newGadgets) d sigs !! a = d !! a.
Proof.
  induction sigs as [|sig0 sigs IH]; intros d a Hnone; simpl; [reflexivity|].
  rewrite IH by (intros sig Hin; apply Hnone; right; exact Hin).
  rewrite record_sig_lookup. rewrite decide_False; [reflexivity|].
  apply Hnone. left.
Qed.

(** The vector of an address that a single signature lists. *)
Lemma displacements_lookup_only (sigs : list Sig) (sig : Sig) (a : Ptr) :
  forall (d : gmap Ptr (list Z)),
    sig ∈ sigs -> lists oldGadgets sig a ->
    (forall sig', sig' ∈ sigs -> sig' <> sig -> ~ lists oldGadgets sig' a) ->
    foldl (record_sig oldGadgets newGadgets) d sigs !! a =
      Some (offsets_from (default [] (newGadgets !! sig)) a).
Proof.
  induction sigs as [|sig0 sigs IH]; intros d Hin Hl Hothers; [inversion Hin|].
  simpl. destruct (decide (sig ∈ sigs)) as [Hlater|Hlast].
  - apply IH; [exact Hlater | exact Hl |].
    intros sig' Hin'. apply Hothers. right. exact Hin'.
  - apply elem_of_cons in Hin as [<-|Hin]; [|contradiction].
    rewrite displacements_untouched.
    + rewrite record_sig_lookup. rewrite decide_True by exact Hl. reflexivity.
    + intros sig' Hin'. apply Hothers; [right; exact Hin'|].
      intros ->. contradiction.
Qed.

(** An address some signature of the range lists has a vector. *)
Lemma displacements_lookup_is_Some (sigs : list Sig) (a : Ptr) :
  forall (d : gmap Ptr (list Z)),
    is_Some (d !! a) \/ (exists sig, sig ∈ sigs /\ lists oldGadgets sig a) ->
    is_Some (foldl (record_sig oldGadgets newGadgets) d sigs !! a).
Proof.
  induction sigs as [|sig0 sigs IH]; intros d Hsome; simpl.
  - destruct Hsome as [Hd|(sig & Hin & _)]; [exact Hd | inversion Hin].
  - apply IH. rewrite record_sig_lookup.
    destruct (decide (lists oldGadgets sig0 a)) as [Hl|Hnl]; [left; eauto|].
    destruct Hsome as [Hd|(sig & Hin & Hl)]; [left; exact Hd|].
    apply elem_of_cons in Hin as [->|Hin]; [contradiction|].
    right. eauto.
Qed.

(** A signature of the old region is not reported as added. *)
Lemma added_lookup_old (sigs : list Sig) (sig : Sig) :
  forall (added : gmap Sig (list Ptr)),
    is_Some (oldGadgets !! sig) ->
    foldl (record_added oldGadgets newGadgets) added sigs !! sig = added !! sig.
Proof.
  induction sigs as [|sig0 sigs IH]; intros added Hold; simpl; [reflexivity|].
  rewrite IH by exact Hold. unfold record_added.
  destruct (oldGadgets !! sig0) eqn:H0; [reflexivity|].
  apply lookup_insert_ne. intros ->. rewrite H0 in Hold. by destruct Hold.
Qed.

End Displacements.

(** Orders of ranging over the maps of the examples. *)
Lemma ranges_empty {K} `{Countable K} {V} : ranges (∅ : gmap K V) [].
Proof.
  split; [constructor|]. intros k. rewrite lookup_empty. split.
  - intros Hin. inversion Hin.
  - intros [v Hv]. discriminate.
Qed.

Lemma ranges_insert {K} `{Countable K} {V} (m : gmap K V) (keys : list K) k v :
  m !! k = None -> ranges m keys -> ranges (<[k := v]> m) (k :: keys).
Proof.
  intros Hk [Hnd Hkeys]. split.
  - constructor; [|exact Hnd]. intros Hin%Hkeys. rewrite Hk in Hin. by destruct Hin.
  - intros k'. rewrite elem_of_cons, lookup_insert_is_Some, Hkeys. split.
    + intros [->|Hs]; [left; reflexivity|].
      destruct (decide (k = k')); [left; assumption | right; split; assumption].
    + intros [->|[_ Hs]]; [left; reflexivity | right; exact Hs].
Qed.

Lemma length_offsets_from (newAddresses : list Ptr) (a : Ptr) :
  length (offsets_from newAddresses a) = length newAddresses.
Proof. unfold offsets_from. apply length_map. Qed.

Lemma only_ret_ranges region addresses :
  ranges (Gadgets (only_ret region addresses)) ["RET"].
Proof. apply ranges_insert; [reflexivity | apply ranges_empty]. Qed.

Lemma only_ret_lookup region addresses sig l :
  Gadgets (only_ret region addresses) !! sig = Some l -> sig = "RET" /\ l = addresses.
Proof.
  simpl. intros [[-> ->]|[_ H]]%lookup_insert_Some; [done|].
  rewrite lookup_empty in H. discriminate.
Qed.

(** The vector of an address of a signature whose addresses no other
    signature of the old region lists. *)
Lemma displacements_lookup_apart (sigsOld sigsNew : list Sig)
    (old new : FingerprintRegion) (sig : Sig) (oldAddresses : list Ptr) (a : Ptr) :
  ranges (Gadgets old) sigsOld ->
  Gadgets old !! sig = Some oldAddresses ->
  (forall sig' addresses a,
     sig' <> sig -> Gadgets old !! sig' = Some addresses ->
     a ∈ oldAddresses -> a ∉ addresses) ->
  a ∈ oldAddresses ->
  GadgetDisplacements (compareFingerprintRegions sigsOld sigsNew old new) !! a
    = Some (offsets_from (default [] (Gadgets new !! sig)) a).
Proof.
  intros [_ Hkeys] Hold Hapart Ha. simpl.
  apply displacements_lookup_only.
  - apply Hkeys. rewrite Hold. eauto.
  - unfold lists. rewrite Hold. exact Ha.
  - intros sig' _ Hne. unfold lists.
    destruct (Gadgets old !! sig') as [addresses|] eqn:Hsig'; simpl.
    + exact (Hapart sig' addresses a Hne Hsig' Ha).
    + apply not_elem_of_nil.
Qed.

(** The entries under addresses that all have a vector, none listed
    twice: one entry per address. *)
Lemma recorded_for_Permutation (f : Ptr -> list Z) (addresses : list Ptr)
    (displacements : gmap Ptr (list Z)) :
  NoDup addresses ->
  (forall a, a ∈ addresses -> displacements !! a = Some (f a)) ->
  recorded_for addresses displacements ≡ₚ map (fun a => (a, f a)) addresses.
Proof.
  intros Hnd Hd. unfold recorded_for. apply NoDup_Permutation.
  - apply NoDup_map_to_list.
  - assert (Hinj : Inj eq eq (fun a : Z => (a, f a))) by (intros a b H; congruence).
    apply (NoDup_fmap_2 _), Hnd.
  - intros [a v]. rewrite elem_of_map_to_list, map_lookup_filter_Some. cbn [fst].
    rewrite list_elem_of_fmap. split.
    + intros [Hv Ha]. exists a. split; [|exact Ha]. rewrite (Hd a Ha) in Hv. congruence.
    + intros (b & Heq & Hb). injection Heq as -> ->. split; [apply Hd|]; exact Hb.
Qed.

(** The signatures of the two-signature examples, in the order given. *)
Lemma two_sigs_ranges (sig sig' : Sig) (addresses addresses' : list Ptr) :
  sig <> sig' ->
  ranges (<[sig := addresses]> (<[sig' := addresses']> (∅ : gmap Sig (list Ptr))))
    [sig; sig'].
Proof.
  intros Hne. apply ranges_insert.
  - rewrite lookup_insert_ne by congruence. apply lookup_empty.
  - apply ranges_insert; [apply lookup_empty | apply ranges_empty].
Qed.

Lemma two_sigs_lookup (sig sig' s : Sig) (addresses addresses' l : list Ptr) :
  <[sig := addresses]> (<[sig' := addresses']> (∅ : gmap Sig (list Ptr))) !! s = Some l ->
  (s = sig /\ l = addresses) \/ (s = sig' /\ l = addresses').
Proof.
  intros [[-> ->]|[_ H]]%lookup_insert_Some; [left; done|].
  apply lookup_insert_Some in H as [[-> ->]|[_ H]]; [right; done|].
  rewrite lookup_empty in H. discriminate.
Qed.

(* --------------------------------------------------------------------- *)
(** *** The claims about the comparison of two regions *)
(* --------------------------------------------------------------------- *)

(** C5, as the code has it.  The vectors are keyed by the old address
    alone.  For a signature of both regions that lists none of its old
    addresses twice, and none of whose old addresses is listed under
    another signature of the old region, the vector recorded for each of
    its old addresses holds one offset per new address of the signature.
    The map then holds, under the old addresses of the signature, one
    entry per old address, and the offsets in these entries are as many
    as the old addresses times the new addresses. *)
Theorem displacement_vectors_cover_pairs
    (sigsOld sigsNew : list Sig) (old new : FingerprintRegion)
    (sig : Sig) (oldAddresses newAddresses : list Ptr) :
  ranges (Gadgets old) sigsOld ->
  Gadgets old !! sig = Some oldAddresses ->
  Gadgets new !! sig = Some newAddresses ->
  NoDup oldAddresses ->
  (forall sig' addresses a,
     sig' <> sig -> Gadgets old !! sig' = Some addresses ->
     a ∈ oldAddresses -> a ∉ addresses) ->
  (forall a, a ∈ oldAddresses ->
     GadgetDisplacements (compareFingerprintRegions sigsOld sigsNew old new) !! a
       = Some (offsets_from newAddresses a)) /\
  recorded_for oldAddresses
    (GadgetDisplacements (compareFingerprintRegions sigsOld sigsNew old new))
    ≡ₚ map (fun a => (a, offsets_from newAddresses a)) oldAddresses /\
  offsets_recorded
    (recorded_for oldAddresses
       (GadgetDisplacements (compareFingerprintRegions sigsOld sigsNew old new)))
    = (length oldAddresses * length newAddresses)%nat.
Proof.
  intros Hkeys Hold Hnew Hnd Hapart.
  assert (Hvec : forall a, a ∈ oldAddresses ->
            GadgetDisplacements (compareFingerprintRegions sigsOld sigsNew old new) !! a
              = Some (offsets_from newAddresses a)).
  { intros a Ha.
    rewrite (displacements_lookup_apart sigsOld sigsNew old new sig oldAddresses a
               Hkeys Hold Hapart Ha).
    rewrite Hnew. reflexivity. }
  pose proof (recorded_for_Permutation (offsets_from newAddresses) oldAddresses _ Hnd Hvec)
    as Hperm.
  split; [exact Hvec|]. split; [exact Hperm|].
  unfold offsets_recorded. rewrite Hperm. clear.
  induction oldAddresses as [|a l IH]; [reflexivity|].
  simpl. rewrite IH, length_offsets_from. reflexivity.
Qed.

Lemma displacement_vectors_cover_pairs_witness :
  ranges (Gadgets pop_ret_4096) ["RET"; "POP RAX; RET"] /\
  NoDup [4097; 4100] /\
  GadgetDisplacements
    (compareFingerprintRegions ["RET"; "POP RAX; RET"] ["RET"; "POP RAX; RET"]
       pop_ret_4096 pop_ret_8192) !! 4097 = Some [4096; 4099; 4103] /\
  offsets_recorded
    (recorded_for [4097; 4100]
       (GadgetDisplacements
          (compareFingerprintRegions ["RET"; "POP RAX; RET"] ["RET"; "POP RAX; RET"]
             pop_ret_4096 pop_ret_8192)))
    = (2 * 3)%nat.
Proof.
  assert (Hr : ranges (Gadgets pop_ret_4096) ["RET"; "POP RAX; RET"])
    by (apply two_sigs_ranges; discriminate).
  assert (Hnd : NoDup [4097; 4100]).
  { apply NoDup_cons. split; [|apply NoDup_singleton].
    intros H%list_elem_of_singleton. discriminate. }
  assert (Hapart : forall sig' addresses a,
            sig' <> "RET" -> Gadgets pop_ret_4096 !! sig' = Some addresses ->
            a ∈ [4097; 4100] -> a ∉ addresses).
  { intros sig' addresses a Hne [[-> _]|[_ ->]]%two_sigs_lookup Ha; [contradiction|].
    intros ->%list_elem_of_singleton. revert Ha.
    rewrite !elem_of_cons, elem_of_nil. intros [H|[H|[]]]; discriminate. }
  pose proof (displacement_vectors_cover_pairs
                ["RET"; "POP RAX; RET"] ["RET"; "POP RAX; RET"]
                pop_ret_4096 pop_ret_8192 "RET" [4097; 4100] [8193; 8196; 8200]
                Hr eq_refl eq_refl Hnd Hapart) as H.
  refine (conj Hr (conj Hnd (conj _ (proj2 (proj2 H))))).
  refine (proj1 H 4097 _). left.
Defined.

(** C5, as the specification words it, fails in two ways.  For the
    gadgets of [c3 c3] moved from 0x1000 to 0x2000 the address 0x1000 is
    listed under both signatures, and the vector written last replaces
    the other, in whichever order the signatures of the old region are
    ranged over: with RET first the entries under the addresses of RET
    hold 3 offsets, not 2 times 2; with RET last the entry under the
    address of the two-instruction gadget holds 2, not 1 times 1.  And
    for a signature that lists an old address twice the map holds one
    entry under it: 1 offset, not 2 times 1. *)
Lemma displacement_vectors_overwritten :
  Gadgets at_4096 !! "RET" = Some [4096; 4097] /\
  Gadgets at_8192 !! "RET" = Some [8192; 8193] /\
  Gadgets at_4096 !! "RET; RET" = Some [4096] /\
  Gadgets at_8192 !! "RET; RET" = Some [8192] /\
  offsets_recorded
    (recorded_for [4096; 4097]
       (GadgetDisplacements
          (compareFingerprintRegions ["RET"; "RET; RET"] ["RET"; "RET; RET"]
             at_4096 at_8192))) = 3%nat /\
  offsets_recorded
    (recorded_for [4096]
       (GadgetDisplacements
          (compareFingerprintRegions ["RET; RET"; "RET"] ["RET"; "RET; RET"]
             at_4096 at_8192))) = 2%nat /\
  Gadgets (only_ret Process.text [4096; 4096]) !! "RET" = Some [4096; 4096] /\
  Gadgets (only_ret Process.plt [8192]) !! "RET" = Some [8192] /\
  recorded_for [4096; 4096]
    (GadgetDisplacements
       (compareFingerprintRegions ["RET"] ["RET"]
          (only_ret Process.text [4096; 4096]) (only_ret Process.plt [8192])))
    = [(4096, [4096])] /\
  offsets_recorded [(4096, [4096])] = 1%nat.
Proof. repeat split; vm_compute; reflexivity. Qed.

Lemma foldl_ext_in {A B} (f g : A -> B -> A) (l : list B) :
  forall a, (forall a x, x ∈ l -> f a x = g a x) -> foldl f a l = foldl g a l.
Proof.
  induction l as [|x l IH]; intros a Hfg; simpl; [reflexivity|].
  rewrite Hfg by left. apply IH. intros a' y Hy. apply Hfg. right. exact Hy.
Qed.

Lemma foldl_map {A B C} (f : A -> B -> A) (h : C -> B) (l : list C) :
  forall a, foldl f a (map h l) = foldl (fun a x => f a (h x)) a l.
Proof. induction l as [|x l IH]; intros a; simpl; [reflexivity | apply IH]. Qed.

(** C7, as the code has it.  For a signature of the old region that the
    new region lacks, the vector of each of its old addresses that no
    other signature of the old region lists is empty.  The comparison
    says nothing else about the signature: it is not among the added
    gadgets, and the comparison is the same when the signature bears any
    other name that neither region uses. *)
Theorem removed_sig_leaves_empty_vectors
    (sigsOld sigsNew : list Sig) (old new : FingerprintRegion)
    (sig : Sig) (oldAddresses : list Ptr) :
  ranges (Gadgets old) sigsOld ->
  ranges (Gadgets new) sigsNew ->
  Gadgets old !! sig = Some oldAddresses ->
  Gadgets new !! sig = None ->
  (forall a, a ∈ oldAddresses ->
     (forall sig' addresses,
        sig' <> sig -> Gadgets old !! sig' = Some addresses -> a ∉ addresses) ->
     GadgetDisplacements (compareFingerprintRegions sigsOld sigsNew old new) !! a
       = Some []) /\
  AddedGadgets (compareFingerprintRegions sigsOld sigsNew old new) !! sig = None /\
  forall sig',
    Gadgets old !! sig' = None -> Gadgets new !! sig' = None ->
    compareFingerprintRegions (rename_in sig sig' sigsOld) sigsNew
      (rename_sig old sig sig') new
    = compareFingerprintRegions sigsOld sigsNew old new.
Proof.
  intros HrangeOld [_ HkeysNew] Hold Hnew.
  pose proof HrangeOld as [_ HkeysOld]. split; [|split].
  - intros a Ha Hapart. simpl.
    rewrite (displacements_lookup_only (Gadgets old) (Gadgets new) sigsOld sig a).
    + rewrite Hnew. reflexivity.
    + apply HkeysOld. rewrite Hold. eauto.
    + unfold lists. rewrite Hold. exact Ha.
    + intros sig' _ Hne. unfold lists.
      destruct (Gadgets old !! sig') as [addresses|] eqn:Hsig'; simpl.
      * exact (Hapart sig' addresses Hne Hsig').
      * apply not_elem_of_nil.
  - simpl. rewrite added_lookup_old by (rewrite Hold; eauto). apply lookup_empty.
  - intros sig' Hfresh Hfresh'.
    assert (Hother : forall s, s <> sig -> s <> sig' ->
              Gadgets (rename_sig old sig sig') !! s = Gadgets old !! s).
    { intros s Hs Hs'. simpl. rewrite Hold.
      rewrite lookup_insert_ne by congruence. apply lookup_delete_ne. congruence. }
    unfold compareFingerprintRegions. f_equal.
    + unfold rename_in. rewrite foldl_map. apply foldl_ext_in.
      intros d s Hs%HkeysOld. unfold record_sig.
      destruct (decide (s = sig)) as [->|Hne].
      * simpl. rewrite Hold, lookup_insert_eq, Hnew, Hfresh'. reflexivity.
      * rewrite Hother; [reflexivity | exact Hne |].
        intros ->. rewrite Hfresh in Hs. by destruct Hs.
    + apply foldl_ext_in. intros added s Hs%HkeysNew. unfold record_added.
      rewrite Hother; [reflexivity | |].
      * intros ->. rewrite Hnew in Hs. by destruct Hs.
      * intros ->. rewrite Hfresh' in Hs. by destruct Hs.
Qed.

Lemma removed_sig_leaves_empty_vectors_witness :
  ranges (Gadgets with_second_pair) ["RET; RET"; "RET"] /\
  ranges (Gadgets without_pair) ["RET"] /\
  GadgetDisplacements
    (compareFingerprintRegions ["RET; RET"; "RET"] ["RET"] with_second_pair without_pair)
    !! 5000 = Some [] /\
  AddedGadgets
    (compareFingerprintRegions ["RET; RET"; "RET"] ["RET"] with_second_pair without_pair)
    !! "RET; RET" = None.
Proof.
  assert (Hr : ranges (Gadgets with_second_pair) ["RET; RET"; "RET"]).
  { unfold with_second_pair. simpl. rewrite insert_insert_ne by discriminate.
    apply two_sigs_ranges. discriminate. }
  assert (Hr' : ranges (Gadgets without_pair) ["RET"]) by apply only_ret_ranges.
  pose proof (removed_sig_leaves_empty_vectors ["RET; RET"; "RET"] ["RET"]
                with_second_pair without_pair "RET; RET" [4096; 5000]
                Hr Hr' eq_refl eq_refl) as H.
  refine (conj Hr (conj Hr' (conj _ (proj1 (proj2 H))))).
  refine (proj1 H 5000 _ _); [right; left|].
  intros sig' addresses Hne [[_ ->]|[-> _]]%two_sigs_lookup; [|contradiction].
  rewrite !elem_of_cons, elem_of_nil. intros [Heq|[Heq|[]]]; discriminate.
Defined.

(** C7, as the specification words it, fails when an old address of the
    removed signature is listed under another signature as well.  The
    two-instruction gadget at 0x1000 is gone from the new region; ranging
    over it before RET leaves at 0x1000 the vector written for RET, which
    is not empty. *)
Lemma removed_sig_vector_overwritten :
  ranges (Gadgets at_4096) ["RET; RET"; "RET"] /\
  Gadgets at_4096 !! "RET; RET" = Some [4096] /\
  Gadgets without_pair !! "RET; RET" = None /\
  GadgetDisplacements
    (compareFingerprintRegions ["RET; RET"; "RET"] ["RET"] at_4096 without_pair)
    !! 4096 = Some [4096; 4097].
Proof.
  split; [|repeat split; vm_compute; reflexivity].
  unfold at_4096. simpl. rewrite insert_insert_ne by discriminate.
  apply ranges_insert; [reflexivity|].
  apply ranges_insert; [reflexivity | apply ranges_empty].
Qed.

(* --------------------------------------------------------------------- *)
(** *** Facts about the comparison of a fingerprint with itself *)
(* --------------------------------------------------------------------- *)

Lemma sub64_self (a : Z) : sub64 a a = 0.
Proof. unfold sub64. rewrite Z.sub_diag. reflexivity. Qed.

Lemma sub64_zero_iff (a b : Z) :
  is_u64 a -> is_u64 b -> sub64 b a = 0 <-> b = a.
Proof.
  unfold is_u64, sub64, two64. change (2 ^ 64) with 18446744073709551616.
  intros Ha Hb. split; [|intros ->; rewrite Z.sub_diag; reflexivity].
  intros H. destruct (Z_lt_le_dec b a) as [Hlt|Hle].
  - replace (b - a) with (b - a + 18446744073709551616 + (-1) * 18446744073709551616)
      in H by lia.
    rewrite Z.mod_add in H by lia. rewrite Z.mod_small in H by lia. lia.
  - rewrite Z.mod_small in H by lia. lia.
Qed.

Lemma zeros_offsets_from (addresses : list Ptr) (a : Ptr) :
  Forall is_u64 addresses -> is_u64 a ->
  zeros (offsets_from addresses a) = length (filter (fun b => b = a) addresses).
Proof.
  intros Hall Ha. unfold zeros, offsets_from.
  induction Hall as [|b l Hb Hl IH]; [reflexivity|].
  cbn [map]. rewrite !filter_cons.
  destruct (decide (b = a)) as [->|Hne].
  - rewrite decide_True by apply sub64_self. simpl. rewrite IH. reflexivity.
  - rewrite decide_False by (rewrite sub64_zero_iff; assumption). exact IH.
Qed.

Lemma filter_eq_absent (l : list Z) (a : Z) :
  a ∉ l -> filter (fun b => b = a) l = [].
Proof.
  induction l as [|b l IH]; intros Hnin; [reflexivity|].
  rewrite filter_cons. rewrite decide_False.
  - apply IH. intros Hin. apply Hnin. right. exact Hin.
  - intros ->. apply Hnin. left.
Qed.

Lemma filter_eq_once (l : list Z) (a : Z) :
  NoDup l -> a ∈ l -> length (filter (fun b => b = a) l) = 1%nat.
Proof.
  induction 1 as [|b l Hb Hnd IH]; intros Hin; [inversion Hin|].
  rewrite filter_cons. destruct (decide (b = a)) as [->|Hne].
  - simpl. rewrite filter_eq_absent by exact Hb. reflexivity.
  - apply IH. apply elem_of_cons in Hin as [->|Hin]; [contradiction | exact Hin].
Qed.

(** The comparison of a region with itself. *)
Lemma compareFingerprintRegions_self (sigsOld sigsNew : list Sig) (fr : FingerprintRegion) :
  ranges (Gadgets fr) sigsOld ->
  (forall sig addresses, Gadgets fr !! sig = Some addresses ->
     NoDup addresses /\ Forall is_u64 addresses) ->
  self_compared fr (compareFingerprintRegions sigsOld sigsNew fr fr).
Proof.
  intros [_ Hkeys] Hwf. repeat split.
  - apply sub64_self.
  - simpl. intros a v [Hd|(sig & Hin & Hl & ->)]%displacements_lookup_Some.
    + rewrite lookup_empty in Hd. discriminate.
    + unfold lists in Hl.
      destruct (Gadgets fr !! sig) as [addresses|] eqn:Hsig; simpl in *;
        [|by apply not_elem_of_nil in Hl].
      destruct (Hwf sig addresses Hsig) as [Hnd Hall].
      rewrite zeros_offsets_from; [apply filter_eq_once; assumption | exact Hall |].
      rewrite Forall_forall in Hall. apply Hall, Hl.
  - simpl. intros sig addresses a Hsig Ha.
    apply displacements_lookup_is_Some. right. exists sig. split.
    + apply Hkeys. rewrite Hsig. eauto.
    + unfold lists. rewrite Hsig. exact Ha.
Qed.

Section SelfComparison.

Variable sigs : string -> list Sig * list Sig.
Variable f : gmap string FingerprintRegion.

Lemma compare_old_self (kinds : list string) :
  forall ret,
    foldl (compare_old sigs f f) ret kinds =
      {| AddedRegions := AddedRegions ret;
         RemovedRegions := RemovedRegions ret;
         SharedRegionComparisons :=
           SharedRegionComparisons ret ++ omap (self_comparison sigs f) kinds |}.
Proof.
  induction kinds as [|kind kinds IH]; intros ret; simpl.
  - rewrite app_nil_r. destruct ret; reflexivity.
  - rewrite IH. unfold compare_old, self_comparison.
    destruct (f !! kind) as [fr|]; simpl; [|reflexivity].
    rewrite <- app_assoc. reflexivity.
Qed.

Lemma compare_new_self (kinds : list string) :
  forall ret, foldl (compare_new f f) ret kinds = ret.
Proof.
  induction kinds as [|kind kinds IH]; intros ret; simpl; [reflexivity|].
  rewrite IH. unfold compare_new. destruct (f !! kind); reflexivity.
Qed.

Lemma self_comparisons_related (kinds : list string) :
  (forall kind, kind ∈ kinds -> is_Some (f !! kind)) ->
  (forall kind fr, f !! kind = Some fr -> ranges (Gadgets fr) (sigs kind).1) ->
  distinct_addresses f ->
  Forall2 (fun kind c => exists fr, f !! kind = Some fr /\ self_compared fr c)
          kinds (omap (self_comparison sigs f) kinds).
Proof.
  intros Hpresent Hsigs Hwf. induction kinds as [|kind kinds IH]; [constructor|].
  destruct (Hpresent kind) as [fr Hfr]; [left|].
  change (omap (self_comparison sigs f) (kind :: kinds))
    with (match self_comparison sigs f kind with
          | Some c => c :: omap (self_comparison sigs f) kinds
          | None => omap (self_comparison sigs f) kinds
          end).
  unfold self_comparison at 1. rewrite Hfr. simpl. constructor.
  - exists fr. split; [exact Hfr|].
    apply compareFingerprintRegions_self; [exact (Hsigs kind fr Hfr)|].
    intros sig addresses. exact (Hwf kind fr sig addresses Hfr).
  - apply IH. intros kind' Hin. apply Hpresent. right. exact Hin.
Qed.

End SelfComparison.

(** C4, as the code has it.  Let the addresses of a fingerprint be 64-bit
    values, none listed twice under one signature.  Comparing the
    fingerprint with itself, in whatever orders the maps are ranged over,
    gives no added and no removed region and one comparison per region, in
    the order of the first loop; each has displacement zero, a vector for
    every address of every signature of the region, and exactly one zero
    entry in every vector. *)
Theorem compareFingerprints_self
    (kindsOld kindsNew : list string) (sigs : string -> list Sig * list Sig)
    (f : gmap string FingerprintRegion) :
  ranges f kindsOld ->
  ranges f kindsNew ->
  (forall kind fr, f !! kind = Some fr -> ranges (Gadgets fr) (sigs kind).1) ->
  distinct_addresses f ->
  AddedRegions (compareFingerprints kindsOld kindsNew sigs f f) = [] /\
  RemovedRegions (compareFingerprints kindsOld kindsNew sigs f f) = [] /\
  Forall2 (fun kind c => exists fr, f !! kind = Some fr /\ self_compared fr c)
    kindsOld (SharedRegionComparisons (compareFingerprints kindsOld kindsNew sigs f f)).
Proof.
  intros [_ Hkinds] _ Hsigs Hwf. unfold compareFingerprints.
  rewrite compare_new_self, compare_old_self. simpl. repeat split.
  apply self_comparisons_related; [|exact Hsigs|exact Hwf].
  intros kind Hin. apply Hkinds. exact Hin.
Qed.

Lemma one_region_ranges addresses : ranges (one_region addresses) ["/bin/target"].
Proof. apply ranges_insert; [reflexivity | apply ranges_empty]. Qed.

Lemma one_region_lookup addresses kind fr :
  one_region addresses !! kind = Some fr -> fr = only_ret Process.text addresses.
Proof.
  unfold one_region. intros [[_ <-]|[_ H]]%lookup_insert_Some; [reflexivity|].
  rewrite lookup_empty in H. discriminate.
Qed.

Lemma one_region_distinct : distinct_addresses (one_region [4096; 4100]).
Proof.
  intros kind fr sig addresses ->%one_region_lookup [_ ->]%only_ret_lookup. split.
  - apply NoDup_cons. split; [|apply NoDup_singleton].
    intros H%list_elem_of_singleton. discriminate.
  - repeat constructor; unfold is_u64, two64; lia.
Qed.

Lemma compareFingerprints_self_witness :
  ranges (one_region [4096; 4100]) ["/bin/target"] /\
  distinct_addresses (one_region [4096; 4100]) /\
  AddedRegions (compareFingerprints ["/bin/target"] ["/bin/target"] ret_only
                  (one_region [4096; 4100]) (one_region [4096; 4100])) = [] /\
  RemovedRegions (compareFingerprints ["/bin/target"] ["/bin/target"] ret_only
                    (one_region [4096; 4100]) (one_region [4096; 4100])) = [] /\
  Forall2 (fun kind c => exists fr, one_region [4096; 4100] !! kind = Some fr /\
                                    self_compared fr c)
    ["/bin/target"]
    (SharedRegionComparisons
       (compareFingerprints ["/bin/target"] ["/bin/target"] ret_only
          (one_region [4096; 4100]) (one_region [4096; 4100]))).
Proof.
  split; [apply one_region_ranges|]. split; [apply one_region_distinct|].
  apply (compareFingerprints_self ["/bin/target"] ["/bin/target"] ret_only
           (one_region [4096; 4100])).
  - apply one_region_ranges.
  - apply one_region_ranges.
  - intros kind fr ->%one_region_lookup. apply only_ret_ranges.
  - apply one_region_distinct.
Defined.

(** C4, as the specification words it, fails for a fingerprint that lists
    an address twice under one signature: the vector of that address then
    has two zero entries. *)
Lemma compareFingerprints_self_duplicate :
  ranges (one_region [4096; 4096]) ["/bin/target"] /\
  SharedRegionComparisons
    (compareFingerprints ["/bin/target"] ["/bin/target"] ret_only
       (one_region [4096; 4096]) (one_region [4096; 4096]))
  = [compareFingerprintRegions ["RET"] ["RET"]
       (only_ret Process.text [4096; 4096]) (only_ret Process.text [4096; 4096])] /\
  GadgetDisplacements
    (compareFingerprintRegions ["RET"] ["RET"]
       (only_ret Process.text [4096; 4096]) (only_ret Process.text [4096; 4096]))
    !! 4096 = Some [0; 0] /\
  zeros [0; 0] = 2%nat.
Proof.
  split; [apply one_region_ranges|]. repeat split; vm_compute; reflexivity.
Qed.

(* --------------------------------------------------------------------- *)
(** *** Added and removed regions *)
(* --------------------------------------------------------------------- *)

Section AddedRemoved.

Variable sigs : string -> list Sig * list Sig.
Variables old new : gmap string FingerprintRegion.

Lemma compare_old_regions (kinds : list string) :
  forall ret,
    AddedRegions (foldl (compare_old sigs old new) ret kinds) = AddedRegions ret /\
    RemovedRegions (foldl (compare_old sigs old new) ret kinds) =
      RemovedRegions ret ++ omap (removed_region old new) kinds.
Proof.
  induction kinds as [|kind kinds IH]; intros ret.
  - simpl. rewrite app_nil_r. done.
  - cbn [foldl]. destruct (IH (compare_old sigs old new ret kind)) as [-> ->].
    change (omap (removed_region old new) (kind :: kinds))
      with (match removed_region old new kind with
            | Some r => r :: omap (removed_region old new) kinds
            | None => omap (removed_region old new) kinds
            end).
    unfold compare_old, removed_region.
    destruct (old !! kind) as [mapping|]; simpl; [|done].
    destruct (new !! kind); simpl; [done|].
    rewrite <- app_assoc. done.
Qed.

Lemma compare_new_regions (kinds : list string) :
  forall ret,
    AddedRegions (foldl (compare_new old new) ret kinds) =
      AddedRegions ret ++ omap (added_region old new) kinds /\
    RemovedRegions (foldl (compare_new old new) ret kinds) = RemovedRegions ret.
Proof.
  induction kinds as [|kind kinds IH]; intros ret.
  - simpl. rewrite app_nil_r. done.
  - cbn [foldl]. destruct (IH (compare_new old new ret kind)) as [-> ->].
    change (omap (added_region old new) (kind :: kinds))
      with (match added_region old new kind with
            | Some r => r :: omap (added_region old new) kinds
            | None => omap (added_region old new) kinds
            end).
    unfold compare_new, added_region.
    destruct (new !! kind) as [mapping|]; simpl; [|done].
    destruct (old !! kind); simpl; [done|].
    rewrite <- app_assoc. done.
Qed.

End AddedRemoved.

(** Region symmetry (comparator law 7).  The regions that the comparison
    of [a] with [b] reports as added are those that the comparison of [b]
    with [a] reports as removed, in whatever orders the maps are ranged
    over. *)
Theorem added_regions_are_removed_regions_of_converse
    (kindsA kindsB kindsB' kindsA' : list string)
    (sigs sigs' : string -> list Sig * list Sig)
    (a b : gmap string FingerprintRegion) (region : MemoryRegion) :
  ranges b kindsB -> ranges b kindsB' ->
  region ∈ AddedRegions (compareFingerprints kindsA kindsB sigs a b) <->
  region ∈ RemovedRegions (compareFingerprints kindsB' kindsA' sigs' b a).
Proof.
  intros [_ HB] [_ HB']. unfold compareFingerprints.
  destruct (compare_new_regions a b kindsB
              (foldl (compare_old sigs a b)
                 {| AddedRegions := []; RemovedRegions := [];
                    SharedRegionComparisons := [] |} kindsA)) as [-> _].
  destruct (compare_old_regions sigs a b kindsA
              {| AddedRegions := []; RemovedRegions := [];
                 SharedRegionComparisons := [] |}) as [-> _].
  destruct (compare_new_regions b a kindsA'
              (foldl (compare_old sigs' b a)
                 {| AddedRegions := []; RemovedRegions := [];
                    SharedRegionComparisons := [] |} kindsB')) as [_ ->].
  destruct (compare_old_regions sigs' b a kindsB'
              {| AddedRegions := []; RemovedRegions := [];
                 SharedRegionComparisons := [] |}) as [_ ->].
  simpl. rewrite !list_elem_of_omap.
  assert (Hsame : forall kind, added_region a b kind = removed_region b a kind)
    by reflexivity.
  split; intros (kind & Hin & Hregion); exists kind.
  - split; [|rewrite <- Hsame; exact Hregion].
    apply HB'. unfold added_region in Hregion.
    destruct (b !! kind); [eauto | discriminate].
  - split; [|rewrite Hsame; exact Hregion].
    apply HB. unfold removed_region in Hregion.
    destruct (b !! kind); [eauto | discriminate].
Qed.

Lemma added_regions_are_removed_regions_of_converse_witness :
  ranges (one_region [4096; 4100]) ["/bin/target"] /\
  (Process.text ∈ AddedRegions
     (compareFingerprints [] ["/bin/target"] ret_only ∅ (one_region [4096; 4100])) <->
   Process.text ∈ RemovedRegions
     (compareFingerprints ["/bin/target"] [] ret_only (one_region [4096; 4100]) ∅)).
Proof.
  split; [apply one_region_ranges|].
  exact (added_regions_are_removed_regions_of_converse [] ["/bin/target"] ["/bin/target"] []
           ret_only ret_only ∅ (one_region [4096; 4100]) Process.text
           (one_region_ranges _) (one_region_ranges _)).
Defined.

(* --------------------------------------------------------------------- *)
(** *** Facts about the builder *)
(* --------------------------------------------------------------------- *)

Lemma builder_emissions (calls : list callback) :
  forall fingerprint section,
    (foldl on_callback (fingerprint, section) calls).1 =
      built fingerprint (emissions section calls).
Proof.
  induction calls as [|[region|gadget] calls IH]; intros fingerprint section; simpl.
  - reflexivity.
  - apply IH.
  - apply IH.
Qed.

(** The entry of a kind after one call of the gadget closure. *)
Lemma add_gadget_lookup fingerprint section gadget kind :
  add_gadget fingerprint section gadget !! kind =
    if decide (Process.Kind section = kind) then
      Some {| Region := match fingerprint !! kind with
                        | Some fr => Region fr
                        | None => section
                        end;
              Gadgets :=
                <[Signature gadget :=
                    default [] (match fingerprint !! kind with
                                | Some fr => Gadgets fr !! Signature gadget
                                | None => None
                                end) ++ [Address gadget]]>
                  (match fingerprint !! kind with
                   | Some fr => Gadgets fr
                   | None => ∅
                   end) |}
    else fingerprint !! kind.
Proof.
  unfold add_gadget. destruct (decide (Process.Kind section = kind)) as [<-|Hne].
  - destruct (fingerprint !! Process.Kind section) as [fr|] eqn:Hfr.
    + rewrite Hfr. rewrite lookup_insert_eq. reflexivity.
    + rewrite !lookup_insert_eq. simpl. rewrite lookup_empty. reflexivity.
  - destruct (fingerprint !! Process.Kind section) as [fr|] eqn:Hfr.
    + rewrite Hfr. rewrite lookup_insert_ne by exact Hne. reflexivity.
    + rewrite lookup_insert_eq. rewrite !lookup_insert_ne by exact Hne. reflexivity.
Qed.

Lemma filter_snoc {A} (P : A -> Prop) `{forall x, Decision (P x)} (l : list A) (x : A) :
  filter P (l ++ [x]) = filter P l ++ (if decide (P x) then [x] else []).
Proof. rewrite filter_app, filter_cons, filter_nil. reflexivity. Qed.

Lemma nonempty_snoc {A} (l : list A) (x : A) :
  nonempty (l ++ [x]) = Some (default [] (nonempty l) ++ [x]).
Proof. destruct l; reflexivity. Qed.

Lemma built_describes (pairs : list (MemoryRegion * Gadget)) (kind : string) :
  describes kind pairs (built ∅ pairs !! kind).
Proof.
  induction pairs as [|[region gadget] pairs IH] using rev_ind.
  - unfold describes. simpl. apply lookup_empty.
  - unfold built in *. rewrite foldl_app. cbn [foldl fst snd].
    rewrite add_gadget_lookup. unfold describes, of_kind in *.
    rewrite filter_snoc. cbn [fst].
    destruct (decide (Process.Kind region = kind)) as [Hkind|Hkind].
    2:{ rewrite app_nil_r. exact IH. }
    destruct (filter _ pairs) as [|first rest] eqn:Hpairs.
    + rewrite IH. simpl. eexists. split; [reflexivity|]. split; [reflexivity|].
      intros sig. cbn [Gadgets]. unfold addresses_of.
      rewrite filter_cons, filter_nil. cbn [snd].
      destruct (decide (Signature gadget = sig)) as [<-|Hsig].
      * rewrite lookup_insert_eq. reflexivity.
      * rewrite lookup_insert_ne by exact Hsig. apply lookup_empty.
    + destruct IH as (fr & -> & Hregion & Hsigs). cbn [app].
      eexists. split; [reflexivity|]. split; [exact Hregion|].
      intros sig. cbn [Gadgets]. unfold addresses_of in *.
      change (first :: rest ++ [(region, gadget)])
        with ((first :: rest) ++ [(region, gadget)]).
      rewrite filter_snoc. cbn [snd].
      destruct (decide (Signature gadget = sig)) as [<-|Hsig].
      * rewrite lookup_insert_eq, map_app. cbn [map].
        rewrite nonempty_snoc, Hsigs. reflexivity.
      * rewrite lookup_insert_ne by exact Hsig. rewrite app_nil_r. apply Hsigs.
Qed.

(** C9, as the code has it.  The fingerprint is a map, so a kind has at
    most one entry.  A kind has an entry exactly when some gadget was
    emitted under a region of that kind.  The entry was allocated at the
    first such gadget and carries the metadata of the region that gadget
    was emitted under, which need not be the first region of the kind
    that was enumerated; the gadgets of every later region of the same
    kind are merged into it: each signature lists the addresses of its
    gadgets under regions of that kind, in the order of emission.  The
    hard error and the soft errors of the enumeration are returned as
    they are. *)
Theorem Fingerprint_merges_by_kind
    (calls : list callback) (harderror : option error) (softerrors : list error)
    (kind : string) :
  describes kind (emissions Process.NoRegionAvailable calls)
    ((Fingerprint (calls, harderror, softerrors)).1.1 !! kind) /\
  (Fingerprint (calls, harderror, softerrors)).1.2 = harderror /\
  (Fingerprint (calls, harderror, softerrors)).2 = softerrors.
Proof.
  split; [|split; reflexivity].
  unfold Fingerprint. cbn [fst]. rewrite builder_emissions. apply built_describes.
Qed.

(** C9, as the specification words it, fails when the first region of a
    kind yields no gadget.  [text] is enumerated first and
    [second_mapping], of the same kind, after it; the only gadget is
    found in the second, and the entry of the kind carries the metadata
    of the second region, not that of [text]. *)
Lemma Fingerprint_metadata_of_later_region :
  Process.Kind second_mapping = Process.Kind Process.text /\
  exists fr,
    (Fingerprint
       ([OnRegion Process.text;
         OnRegion second_mapping;
         OnGadget {| Signature := "RET"; Address := 8192 |}], None, [])).1.1
      !! Process.Kind Process.text = Some fr /\
    Region fr = second_mapping /\
    Region fr <> Process.text.
Proof.
  split; [reflexivity|].
  exists (only_ret second_mapping [8192]).
  split; [vm_compute; reflexivity|]. split; [reflexivity|]. discriminate.
Qed.

(** Two regions of one kind, a gadget in each: one entry, with the
    metadata of the first region and both addresses. *)
Example Fingerprint_two_regions_one_kind :
  (Fingerprint
     ([OnRegion Process.text;
       OnGadget {| Signature := "RET"; Address := 4096 |};
       OnRegion {| Process.Address := 8192; Process.Size := 16; Process.Access := 5;
                   Process.Kind := "/bin/target" |};
       OnGadget {| Signature := "RET"; Address := 8192 |}], None, [])).1.1
  = <["/bin/target" := only_ret Process.text [4096; 8192]]> ∅.
Proof. vm_compute. reflexivity. Qed.

(** A region without gadgets leaves no trace: the entry carries the
    metadata of the first region of the kind that had a gadget. *)
Example Fingerprint_region_without_gadgets :
  (Fingerprint
     ([OnRegion Process.text;
       OnRegion {| Process.Address := 8192; Process.Size := 16; Process.Access := 5;
                   Process.Kind := "/bin/target" |};
       OnGadget {| Signature := "RET"; Address := 8192 |}], None, [])).1.1
  = <["/bin/target" :=
        only_ret {| Process.Address := 8192; Process.Size := 16; Process.Access := 5;
                    Process.Kind := "/bin/target" |} [8192]]> ∅.
Proof. vm_compute. reflexivity. Qed.

(* --------------------------------------------------------------------- *)
(** *** Further properties of the comparator and of the builder *)
(* --------------------------------------------------------------------- *)

(** What the first loop appends to the shared comparisons for a kind. *)
Definition shared_comparison (sigs : string -> list Sig * list Sig)
    (old new : gmap string FingerprintRegion) (kind : string)
  : option FingerprintRegionComparison :=
  mapping ← old !! kind;
  newRegion ← new !! kind;
  Some (compareFingerprintRegions (sigs kind).1 (sigs kind).2 mapping newRegion).

(** The region [fr] moved by [d]: its address and the addresses of its
    gadgets, with the wrap-around of 64-bit addition. *)
Definition shift_region (d : Z) (fr : FingerprintRegion) : FingerprintRegion :=
  {| Region :=
       {| Process.Address := add64 (Process.Address (Region fr)) d;
          Process.Size := Process.Size (Region fr);
          Process.Access := Process.Access (Region fr);
          Process.Kind := Process.Kind (Region fr) |};
     Gadgets := map (fun a => add64 a d) <$> Gadgets fr |}.

(** What identifies an emitted gadget in a fingerprint. *)
Definition gadget_key (p : MemoryRegion * Gadget) : string * Sig * Ptr :=
  (Process.Kind p.1, Signature p.2, Address p.2).

Lemma omap_cons {A B} (f : A -> option B) (x : A) (l : list A) :
  omap f (x :: l) = match f x with Some y => y :: omap f l | None => omap f l end.
Proof. reflexivity. Qed.

Lemma ranges_length {K} `{Countable K} {V} (m : gmap K V) (keys : list K) :
  ranges m keys -> length keys = size m.
Proof.
  intros [Hnd Hkeys].
  rewrite <- length_map_to_list, <- (length_fmap fst (map_to_list m)).
  apply Permutation_length, NoDup_Permutation;
    [exact Hnd | apply NoDup_fst_map_to_list |].
  intros k. rewrite Hkeys, list_elem_of_fmap. split.
  - intros [v Hv]. exists (k, v). split; [reflexivity|]. apply elem_of_map_to_list, Hv.
  - intros [[k' v] [-> Hin]]. exists v. apply elem_of_map_to_list, Hin.
Qed.

Section Classification.

Variable sigs : string -> list Sig * list Sig.
Variables old new : gmap string FingerprintRegion.

Lemma compare_old_shared (kinds : list string) :
  forall ret,
    SharedRegionComparisons (foldl (compare_old sigs old new) ret kinds) =
      SharedRegionComparisons ret ++ omap (shared_comparison sigs old new) kinds.
Proof.
  induction kinds as [|kind kinds IH]; intros ret.
  - simpl. rewrite app_nil_r. reflexivity.
  - cbn [foldl]. rewrite IH, omap_cons. unfold compare_old, shared_comparison.
    destruct (old !! kind) as [mapping|]; simpl; [|reflexivity].
    destruct (new !! kind); simpl; [|reflexivity].
    rewrite <- app_assoc. reflexivity.
Qed.

Lemma compare_new_shared (kinds : list string) :
  forall ret,
    SharedRegionComparisons (foldl (compare_new old new) ret kinds) =
      SharedRegionComparisons ret.
Proof.
  induction kinds as [|kind kinds IH]; intros ret; [reflexivity|].
  cbn [foldl]. rewrite IH. unfold compare_new.
  destruct (new !! kind); [|reflexivity]. destruct (old !! kind); reflexivity.
Qed.

End Classification.

(** Of the kinds of one map, each is either reported alone or found in
    the other map. *)
Lemma removed_or_present (old new : gmap string FingerprintRegion) (kinds : list string) :
  (forall kind, kind ∈ kinds -> is_Some (old !! kind)) ->
  (length (omap (removed_region old new) kinds) +
   length (filter (fun kind => is_Some (new !! kind)) kinds))%nat = length kinds.
Proof.
  induction kinds as [|kind kinds IH]; intros Hpresent; [reflexivity|].
  rewrite omap_cons, filter_cons. unfold removed_region at 1.
  destruct (Hpresent kind) as [mapping Hmapping]; [left|]. rewrite Hmapping. simpl.
  specialize (IH (fun k Hk => Hpresent k (list_elem_of_further _ _ _ Hk))).
  destruct (new !! kind) as [newRegion|] eqn:Hnew.
  - rewrite decide_True by eauto. simpl. lia.
  - rewrite decide_False by (intros [? ?]; discriminate). simpl. lia.
Qed.

Lemma shared_count (sigs : string -> list Sig * list Sig)
    (old new : gmap string FingerprintRegion) (kinds : list string) :
  (forall kind, kind ∈ kinds -> is_Some (old !! kind)) ->
  length (omap (shared_comparison sigs old new) kinds) =
  length (filter (fun kind => is_Some (new !! kind)) kinds).
Proof.
  induction kinds as [|kind kinds IH]; intros Hpresent; [reflexivity|].
  rewrite omap_cons, filter_cons. unfold shared_comparison at 1.
  destruct (Hpresent kind) as [mapping Hmapping]; [left|]. rewrite Hmapping. simpl.
  specialize (IH (fun k Hk => Hpresent k (list_elem_of_further _ _ _ Hk))).
  destruct (new !! kind) as [newRegion|] eqn:Hnew.
  - rewrite decide_True by eauto. simpl. lia.
  - rewrite decide_False by (intros [? ?]; discriminate). exact IH.
Qed.

Lemma common_kinds_count (old new : gmap string FingerprintRegion)
    (kindsOld kindsNew : list string) :
  ranges old kindsOld -> ranges new kindsNew ->
  length (filter (fun kind => is_Some (new !! kind)) kindsOld) =
  length (filter (fun kind => is_Some (old !! kind)) kindsNew).
Proof.
  intros [HndOld HOld] [HndNew HNew].
  apply Permutation_length, NoDup_Permutation; [by apply NoDup_filter..|].
  intros kind. rewrite !list_elem_of_filter, HOld, HNew. tauto.
Qed.

(** Every kind is classified once.  A kind of [old] is reported either as
    a removed region or by a shared comparison, and a kind of [new] either
    as an added region or by a shared comparison: the removed regions and
    the shared comparisons are as many as the kinds of [old], the added
    regions and the shared comparisons as many as the kinds of [new]. *)
Theorem compareFingerprints_classifies_every_kind
    (kindsOld kindsNew : list string) (sigs : string -> list Sig * list Sig)
    (old new : gmap string FingerprintRegion) :
  ranges old kindsOld ->
  ranges new kindsNew ->
  (length (RemovedRegions (compareFingerprints kindsOld kindsNew sigs old new)) +
   length (SharedRegionComparisons (compareFingerprints kindsOld kindsNew sigs old new)))%nat
    = size old /\
  (length (AddedRegions (compareFingerprints kindsOld kindsNew sigs old new)) +
   length (SharedRegionComparisons (compareFingerprints kindsOld kindsNew sigs old new)))%nat
    = size new.
Proof.
  intros HrOld HrNew. unfold compareFingerprints.
  rewrite compare_new_shared, compare_old_shared.
  destruct (compare_new_regions old new kindsNew
              (foldl (compare_old sigs old new)
                 {| AddedRegions := []; RemovedRegions := [];
                    SharedRegionComparisons := [] |} kindsOld)) as [-> ->].
  destruct (compare_old_regions sigs old new kindsOld
              {| AddedRegions := []; RemovedRegions := [];
                 SharedRegionComparisons := [] |}) as [-> ->].
  simpl.
  assert (HinOld : forall kind, kind ∈ kindsOld -> is_Some (old !! kind))
    by (intros kind; apply HrOld).
  assert (HinNew : forall kind, kind ∈ kindsNew -> is_Some (new !! kind))
    by (intros kind; apply HrNew).
  rewrite (shared_count sigs old new kindsOld HinOld).
  split.
  - rewrite (removed_or_present old new kindsOld HinOld). apply ranges_length, HrOld.
  - rewrite (common_kinds_count old new kindsOld kindsNew HrOld HrNew).
    change (added_region old new) with (removed_region new old).
    rewrite (removed_or_present new old kindsNew HinNew). apply ranges_length, HrNew.
Qed.

Lemma compareFingerprints_classifies_every_kind_witness :
  ranges (one_region [4096; 4100]%Z) ["/bin/target"] /\
  ranges (∅ : gmap string FingerprintRegion) [] /\
  (length (RemovedRegions (compareFingerprints ["/bin/target"] [] ret_only
                             (one_region [4096; 4100]%Z) ∅)) +
   length (SharedRegionComparisons (compareFingerprints ["/bin/target"] [] ret_only
                                      (one_region [4096; 4100]%Z) ∅)))%nat
    = size (one_region [4096; 4100]%Z) /\
  (length (AddedRegions (compareFingerprints ["/bin/target"] [] ret_only
                           (one_region [4096; 4100]%Z) ∅)) +
   length (SharedRegionComparisons (compareFingerprints ["/bin/target"] [] ret_only
                                      (one_region [4096; 4100]%Z) ∅)))%nat
    = size (∅ : gmap string FingerprintRegion).
Proof.
  split; [apply one_region_ranges|]. split; [apply ranges_empty|].
  exact (compareFingerprints_classifies_every_kind ["/bin/target"] [] ret_only
           (one_region [4096; 4100]%Z) ∅ (one_region_ranges _) ranges_empty).
Defined.

(** The entry of a signature after the loop over [new.Gadgets]. *)
Lemma added_lookup (oldGadgets newGadgets : gmap Sig (list Ptr)) (sigs : list Sig) :
  forall (added : gmap Sig (list Ptr)) (sig : Sig),
    foldl (record_added oldGadgets newGadgets) added sigs !! sig =
      if decide (sig ∈ sigs /\ oldGadgets !! sig = None)
      then Some (default [] (newGadgets !! sig))
      else added !! sig.
Proof.
  induction sigs as [|sig0 sigs IH]; intros added sig; cbn [foldl].
  - rewrite decide_False; [reflexivity|]. intros [Hin _]. inversion Hin.
  - rewrite IH. destruct (decide (sig ∈ sigs /\ oldGadgets !! sig = None)) as [[Hin Hold]|Hno].
    + rewrite decide_True; [reflexivity|]. split; [right; exact Hin | exact Hold].
    + unfold record_added. destruct (decide (sig0 = sig)) as [->|Hne].
      * destruct (oldGadgets !! sig) eqn:Hold.
        -- rewrite decide_False; [reflexivity|]. intros [_ ?]. discriminate.
        -- rewrite lookup_insert_eq. rewrite decide_True; [reflexivity|].
           split; [left | reflexivity].
      * rewrite decide_False.
        -- destruct (oldGadgets !! sig0); [reflexivity|].
           apply lookup_insert_ne. exact Hne.
        -- intros [[?|Hin]%elem_of_cons Hold]; [congruence|]. apply Hno. done.
Qed.

(** The added gadgets are exactly the signatures of the new region that
    the old region lacks, each with all its addresses in the new region;
    a signature of both regions, or of neither, has no entry. *)
Theorem AddedGadgets_are_the_new_signatures
    (sigsOld sigsNew : list Sig) (old new : FingerprintRegion) (sig : Sig) :
  ranges (Gadgets new) sigsNew ->
  AddedGadgets (compareFingerprintRegions sigsOld sigsNew old new) !! sig =
    match Gadgets old !! sig with
    | None => Gadgets new !! sig
    | Some _ => None
    end.
Proof.
  intros [_ Hkeys]. simpl. rewrite added_lookup, lookup_empty.
  destruct (Gadgets old !! sig) as [addresses|] eqn:Hold.
  - rewrite decide_False; [reflexivity|]. intros [_ ?]. discriminate.
  - destruct (Gadgets new !! sig) as [addresses|] eqn:Hnew.
    + rewrite decide_True; [reflexivity|]. split; [|reflexivity].
      apply Hkeys. rewrite Hnew. eauto.
    + rewrite decide_False; [reflexivity|].
      intros [Hin%Hkeys _]. rewrite Hnew in Hin. by destruct Hin.
Qed.

Lemma AddedGadgets_are_the_new_signatures_witness :
  ranges (Gadgets at_8192) ["RET"; "RET; RET"] /\
  AddedGadgets (compareFingerprintRegions ["RET"] ["RET"; "RET; RET"]
                  (only_ret Process.text [4096; 4097]) at_8192) !! "RET; RET"
    = Some [8192] /\
  AddedGadgets (compareFingerprintRegions ["RET"] ["RET"; "RET; RET"]
                  (only_ret Process.text [4096; 4097]) at_8192) !! "RET"
    = None.
Proof.
  assert (Hr : ranges (Gadgets at_8192) ["RET"; "RET; RET"]).
  { apply ranges_insert; [reflexivity|].
    apply ranges_insert; [reflexivity | apply ranges_empty]. }
  split; [exact Hr|]. split.
  - exact (AddedGadgets_are_the_new_signatures ["RET"] ["RET"; "RET; RET"]
             (only_ret Process.text [4096; 4097]) at_8192 "RET; RET" Hr).
  - exact (AddedGadgets_are_the_new_signatures ["RET"] ["RET"; "RET; RET"]
             (only_ret Process.text [4096; 4097]) at_8192 "RET" Hr).
Defined.

(** Moving the new address by [d] moves the offset by [d]. *)
Lemma sub64_add64 (a b d : Z) : sub64 (add64 b d) a = add64 (sub64 b a) d.
Proof.
  unfold sub64, add64. rewrite Zminus_mod_idemp_l, Zplus_mod_idemp_l.
  f_equal. lia.
Qed.

Lemma offsets_from_shift (d : Z) (newAddresses : list Ptr) (a : Ptr) :
  offsets_from (map (fun b => add64 b d) newAddresses) a =
  map (fun x => add64 x d) (offsets_from newAddresses a).
Proof.
  unfold offsets_from. induction newAddresses as [|b l IH]; [reflexivity|].
  simpl. rewrite sub64_add64, IH. reflexivity.
Qed.

Lemma record_addresses_shift (d : Z) (newAddresses addresses : list Ptr) :
  forall displacements : gmap Ptr (list Z),
    foldl (fun d0 oldAddress =>
             <[oldAddress :=
                 offsets_from (map (fun a => add64 a d) newAddresses) oldAddress]> d0)
          (map (fun x => add64 x d) <$> displacements) addresses =
    map (fun x => add64 x d) <$>
      foldl (fun d0 oldAddress => <[oldAddress := offsets_from newAddresses oldAddress]> d0)
            displacements addresses.
Proof.
  induction addresses as [|a l IH]; intros displacements; [reflexivity|].
  cbn [foldl]. rewrite <- IH, fmap_insert, offsets_from_shift. reflexivity.
Qed.

Lemma record_sig_shift (d : Z) (gadgets : gmap Sig (list Ptr)) (sig : Sig) :
  forall displacements : gmap Ptr (list Z),
    record_sig gadgets (map (fun a => add64 a d) <$> gadgets)
      (map (fun x => add64 x d) <$> displacements) sig =
    map (fun x => add64 x d) <$> record_sig gadgets gadgets displacements sig.
Proof.
  intros displacements. unfold record_sig. rewrite lookup_fmap.
  destruct (gadgets !! sig) as [addresses|]; simpl.
  - apply record_addresses_shift.
  - reflexivity.
Qed.

Lemma displacements_shift (d : Z) (gadgets : gmap Sig (list Ptr)) (sigs : list Sig) :
  forall displacements : gmap Ptr (list Z),
    foldl (record_sig gadgets (map (fun a => add64 a d) <$> gadgets))
      (map (fun x => add64 x d) <$> displacements) sigs =
    map (fun x => add64 x d) <$>
      foldl (record_sig gadgets gadgets) displacements sigs.
Proof.
  induction sigs as [|sig sigs IH]; intros displacements; [reflexivity|].
  cbn [foldl]. rewrite record_sig_shift. apply IH.
Qed.

(** A moved copy.  Comparing a region with the same region moved by [d]
    gives the displacement [d] (modulo 2^64), no added gadget, and for
    every address the vector of the comparison of the region with itself,
    each offset moved by [d]. *)
Theorem compareFingerprintRegions_moved_copy
    (sigsOld sigsNew : list Sig) (fr : FingerprintRegion) (d : Z) :
  ranges (Gadgets (shift_region d fr)) sigsNew ->
  Displacement (compareFingerprintRegions sigsOld sigsNew fr (shift_region d fr))
    = d mod two64 /\
  GadgetDisplacements (compareFingerprintRegions sigsOld sigsNew fr (shift_region d fr))
    = map (fun x => add64 x d) <$>
        GadgetDisplacements (compareFingerprintRegions sigsOld sigsNew fr fr) /\
  AddedGadgets (compareFingerprintRegions sigsOld sigsNew fr (shift_region d fr)) = ∅.
Proof.
  intros [_ Hkeys]. split; [|split].
  - simpl. unfold sub64, add64. rewrite Zminus_mod_idemp_l. f_equal. lia.
  - simpl. rewrite <- displacements_shift, fmap_empty. reflexivity.
  - apply map_eq. intros sig. simpl. rewrite added_lookup, lookup_empty.
    rewrite decide_False; [reflexivity|].
    intros [Hin%Hkeys Hold]. simpl in Hin. rewrite lookup_fmap, Hold in Hin.
    by destruct Hin.
Qed.

Lemma compareFingerprintRegions_moved_copy_witness :
  ranges (Gadgets (shift_region 4096 (only_ret Process.text [4096; 4100]))) ["RET"] /\
  Displacement (compareFingerprintRegions ["RET"] ["RET"]
                  (only_ret Process.text [4096; 4100])
                  (shift_region 4096 (only_ret Process.text [4096; 4100])))
    = 4096 mod two64 /\
  GadgetDisplacements (compareFingerprintRegions ["RET"] ["RET"]
                         (only_ret Process.text [4096; 4100])
                         (shift_region 4096 (only_ret Process.text [4096; 4100])))
    = map (fun x => add64 x 4096) <$>
        GadgetDisplacements (compareFingerprintRegions ["RET"] ["RET"]
                               (only_ret Process.text [4096; 4100])
                               (only_ret Process.text [4096; 4100])) /\
  AddedGadgets (compareFingerprintRegions ["RET"] ["RET"]
                  (only_ret Process.text [4096; 4100])
                  (shift_region 4096 (only_ret Process.text [4096; 4100]))) = ∅.
Proof.
  assert (Hr : ranges (Gadgets (shift_region 4096 (only_ret Process.text [4096; 4100])))
                 ["RET"]).
  { simpl. rewrite fmap_insert, fmap_empty.
    apply ranges_insert; [reflexivity | apply ranges_empty]. }
  split; [exact Hr|].
  exact (compareFingerprintRegions_moved_copy ["RET"] ["RET"]
           (only_ret Process.text [4096; 4100]) 4096 Hr).
Defined.

(** Distinct keys give distinct addresses under one kind and signature. *)
Lemma addresses_of_NoDup (kind : string) (sig : Sig)
    (pairs : list (MemoryRegion * Gadget)) :
  NoDup (map gadget_key pairs) ->
  NoDup (addresses_of sig (of_kind kind pairs)).
Proof.
  unfold addresses_of, of_kind.
  induction pairs as [|p pairs IH]; intros Hnd; [constructor|].
  cbn [map] in Hnd. apply NoDup_cons in Hnd as [Hfresh Hnd].
  rewrite filter_cons. destruct (decide (Process.Kind p.1 = kind)) as [Hkind|_];
    [|apply IH, Hnd].
  rewrite filter_cons. destruct (decide (Signature p.2 = sig)) as [Hsig|_];
    [|apply IH, Hnd].
  cbn [map]. apply NoDup_cons. split; [|apply IH, Hnd].
  intros Hin. apply Hfresh.
  apply (list_elem_of_fmap (fun q : MemoryRegion * Gadget => Address q.2)) in Hin
    as (q & Haddr & Hq).
  apply list_elem_of_filter in Hq as [Hqsig Hq].
  apply list_elem_of_filter in Hq as [Hqkind Hq].
  apply (list_elem_of_fmap gadget_key). exists q. split; [|exact Hq].
  unfold gadget_key. congruence.
Qed.

(** When no gadget is emitted twice (same kind, signature and address),
    the fingerprint built lists no address twice under a signature: the
    builder adds no duplicates of its own. *)
Theorem Fingerprint_lists_each_gadget_once
    (calls : list callback) (harderror : option error) (softerrors : list error)
    (kind : string) (fr : FingerprintRegion) (sig : Sig) (addresses : list Ptr) :
  NoDup (map gadget_key (emissions Process.NoRegionAvailable calls)) ->
  (Fingerprint (calls, harderror, softerrors)).1.1 !! kind = Some fr ->
  Gadgets fr !! sig = Some addresses ->
  NoDup addresses.
Proof.
  intros Hnd Hfr Hsig. unfold Fingerprint in Hfr. cbn [fst] in Hfr.
  rewrite builder_emissions in Hfr.
  pose proof (built_describes (emissions Process.NoRegionAvailable calls) kind) as Hd.
  unfold describes in Hd. rewrite Hfr in Hd.
  destruct (of_kind kind (emissions Process.NoRegionAvailable calls)) as [|first rest] eqn:Hk;
    [discriminate|].
  destruct Hd as (fr' & Heq & _ & Hsigs). injection Heq as <-.
  rewrite Hsigs in Hsig. rewrite <- Hk in Hsig.
  pose proof (addresses_of_NoDup kind sig _ Hnd) as Hnd'.
  destruct (addresses_of sig (of_kind kind (emissions Process.NoRegionAvailable calls)));
    [discriminate|].
  injection Hsig as <-. exact Hnd'.
Qed.

Lemma Fingerprint_lists_each_gadget_once_witness :
  NoDup (map gadget_key
           (emissions Process.NoRegionAvailable
              [OnRegion Process.text;
               OnGadget {| Signature := "RET"; Address := 4096 |};
               OnGadget {| Signature := "RET"; Address := 4097 |}])) /\
  NoDup [4096; 4097].
Proof.
  assert (Hnd : NoDup (map gadget_key
                         (emissions Process.NoRegionAvailable
                            [OnRegion Process.text;
                             OnGadget {| Signature := "RET"; Address := 4096 |};
                             OnGadget {| Signature := "RET"; Address := 4097 |}]))).
  { simpl. apply NoDup_cons. split; [|apply NoDup_singleton].
    intros H%list_elem_of_singleton. discriminate. }
  split; [exact Hnd|].
  exact (Fingerprint_lists_each_gadget_once
           [OnRegion Process.text;
            OnGadget {| Signature := "RET"; Address := 4096 |};
            OnGadget {| Signature := "RET"; Address := 4097 |}] None []
           "/bin/target" (only_ret Process.text [4096; 4097]) "RET" [4096; 4097]
           Hnd eq_refl eq_refl).
Defined.

End Fingerprints.

(* ===================================================================== *)
(** ** DisassembleFile *)
(* ===================================================================== *)

Module Disassemble.
Import Go.

(** What one call of [nextSectionData] returns: whether there is a
    section, its address, its bytes, and an error. *)
Definition section_data : Type := bool * Z * list byte * option error.

Section DisassembleFile.

(** The open binary, whose method [nextSectionData] moves it on to its
    next section, and [types.InstructionInstance]. *)
Context {binary InstructionInstance : Type}.

Variable openBinary : string -> binary * option error.
Variable nextSectionData : binary -> section_data * binary.
Variable Disasm : list byte -> Z -> Z -> Z -> list InstructionInstance * list error.

Definition disassembly : Type :=
  list InstructionInstance * option error * list error.

(** The [for sectionExists] loop, entered with the values the last call
    of [nextSectionData] returned.  One unit of fuel pays for one
    iteration.  (The deferred [b.close()] has no part in the results.) *)
Fixpoint sections_loop (fuel : nat) (b : binary) (last : section_data)
    (start finish : Z) (allInstructions : list InstructionInstance)
    (softerrs : list error) : option disassembly :=
  let '(sectionExists, addr, progData, err) := last in
  if sectionExists then
    match fuel with
    | O => None
    | S fuel' =>
        match err with
        | Some e => Some ([], Some e, [])
        | None =>
            let '(instructions, errors) := Disasm progData addr start finish in
            let softerrs := softerrs ++ errors in
            let allInstructions := allInstructions ++ instructions in
            let '(next, b) := nextSectionData b in
            sections_loop fuel' b next start finish allInstructions softerrs
        end
    end
  else Some (allInstructions, None, softerrs).

Definition DisassembleFile (fuel : nat) (path : string) (start finish : Z)
  : option disassembly :=
  let '(b, err) := openBinary path in
  match err with
  | Some e => Some ([], Some e, [])
  | None =>
      let '(first, b) := nextSectionData b in
      sections_loop fuel b first start finish [] []
  end.

(** [reads b sections err]: from the state [b] on, the calls of
    [nextSectionData] return the sections [sections], each with a nil
    error, and then report that no section is left, together with
    [err]. *)
Inductive reads : binary -> list (Z * list byte) -> option error -> Prop :=
| reads_stop b addr progData err b' :
    nextSectionData b = ((false, addr, progData, err), b') ->
    reads b [] err
| reads_section b addr progData b' sections err :
    nextSectionData b = ((true, addr, progData, None), b') ->
    reads b' sections err ->
    reads b ((addr, progData) :: sections) err.

(** The instructions and the soft errors of a list of sections. *)
Definition instructions_of (start finish : Z) (sections : list (Z * list byte))
  : list InstructionInstance :=
  flat_map (fun s => (Disasm s.2 s.1 start finish).1) sections.

Definition softerrs_of (start finish : Z) (sections : list (Z * list byte))
  : list error :=
  flat_map (fun s => (Disasm s.2 s.1 start finish).2) sections.

End DisassembleFile.

(** A binary as the list of what its calls of [nextSectionData] will
    return; a disassembler that reports one instruction per section, at
    the address of the section. *)
Definition scripted (b : list section_data) : section_data * list section_data :=
  match b with
  | [] => ((false, 0, [], None), [])
  | r :: b => (r, b)
  end.

Definition one_per_section (progData : list byte) (addr start finish : Z)
  : list Z * list error := ([addr], []).

Definition bad_header : error := ErrNew "invalid section header".

Section DisassembleFacts.

Context {binary InstructionInstance : Type}.
Variable nextSectionData : binary -> section_data * binary.
Variable Disasm : list byte -> Z -> Z -> Z -> list InstructionInstance * list error.

(** A reading of the sections is what the loop does, given fuel for its
    iterations. *)
Lemma sections_loop_reads (start finish : Z) b sections err :
  reads nextSectionData b sections err ->
  forall fuel, (length sections <= fuel)%nat ->
    forall allInstructions softerrs,
      (let '(first, b') := nextSectionData b in
       sections_loop nextSectionData Disasm fuel b' first start finish
         allInstructions softerrs) =
        Some (allInstructions ++ instructions_of Disasm start finish sections, None,
              softerrs ++ softerrs_of Disasm start finish sections).
Proof.
  induction 1 as [b addr progData err b' Hnext
                 |b addr progData b' sections err Hnext Hreads IH];
    intros fuel Hfuel allInstructions softerrs; rewrite Hnext.
  - destruct fuel; simpl; rewrite !app_nil_r; reflexivity.
  - destruct fuel as [|fuel]; [simpl in Hfuel; lia|].
    cbn [sections_loop]. unfold instructions_of, softerrs_of. cbn [flat_map fst snd].
    destruct (Disasm progData addr start finish) as [instructions errors].
    cbn [fst snd]. rewrite !app_assoc.
    apply IH. simpl in Hfuel. lia.
Qed.

End DisassembleFacts.

(** C10.  When the binary opens, its calls of [nextSectionData] return
    some sections with nil errors (none, when it is the very first call
    that stops) and then report that no section is left together with an
    error, that error is dropped: given fuel for one iteration per
    section, the function returns the instructions and the soft errors of
    the sections read, and a nil hard error. *)
Theorem DisassembleFile_drops_error_without_section
    {binary InstructionInstance : Type}
    (openBinary : string -> binary * option error)
    (nextSectionData : binary -> section_data * binary)
    (Disasm : list byte -> Z -> Z -> Z -> list InstructionInstance * list error)
    (path : string) (start finish : Z) (b : binary)
    (sections : list (Z * list byte)) (e : error) (fuel : nat) :
  openBinary path = (b, None) ->
  reads nextSectionData b sections (Some e) ->
  (length sections <= fuel)%nat ->
  DisassembleFile openBinary nextSectionData Disasm fuel path start finish =
    Some (instructions_of Disasm start finish sections, None,
          softerrs_of Disasm start finish sections).
Proof.
  intros Hopen Hreads Hfuel. unfold DisassembleFile. rewrite Hopen.
  exact (sections_loop_reads nextSectionData Disasm start finish b sections (Some e)
           Hreads fuel Hfuel [] []).
Qed.

Lemma DisassembleFile_drops_error_without_section_witness :
  reads scripted [(true, 4096, [xc3], None); (false, 0, [], Some bad_header)]
    [(4096, [xc3])] (Some bad_header) /\
  DisassembleFile (fun _ => ([(true, 4096, [xc3], None); (false, 0, [], Some bad_header)], None))
    scripted one_per_section 1 "/bin/target" 0 9223372036854775807 =
    Some ([4096], None, []).
Proof.
  assert (Hreads : reads scripted
                     [(true, 4096, [xc3], None); (false, 0, [], Some bad_header)]
                     [(4096, [xc3])] (Some bad_header)).
  { eapply reads_section; [reflexivity|]. eapply reads_stop. reflexivity. }
  split; [exact Hreads|].
  exact (DisassembleFile_drops_error_without_section
           (fun _ => ([(true, 4096, [xc3], None); (false, 0, [], Some bad_header)], None))
           scripted one_per_section "/bin/target" 0 9223372036854775807 _
           [(4096, [xc3])] bad_header 1 eq_refl Hreads (Nat.le_refl _)).
Defined.

(** The very first call stops with an error: nothing is returned, and no
    hard error either. *)
Example DisassembleFile_first_call_error :
  DisassembleFile (fun _ => ([(false, 0, [], Some bad_header)], None))
    scripted one_per_section 0 "/bin/target" 0 9223372036854775807 =
    Some ([], None, []).
Proof. reflexivity. Qed.

(** An error that comes with a section is the hard error. *)
Example DisassembleFile_error_with_section :
  DisassembleFile (fun _ => ([(true, 4096, [xc3], Some bad_header)], None))
    scripted one_per_section 1 "/bin/target" 0 9223372036854775807 =
    Some ([], Some bad_header, []).
Proof. reflexivity. Qed.

(* --------------------------------------------------------------------- *)
(** *** Further properties of DisassembleFile *)
(* --------------------------------------------------------------------- *)

Section DisassembleErrors.

Context {binary InstructionInstance : Type}.
Variable nextSectionData : binary -> section_data * binary.
Variable Disasm : list byte -> Z -> Z -> Z -> list InstructionInstance * list error.

(** [fails b sections e]: from the state [b] on, the calls of
    [nextSectionData] return the sections [sections], each with a nil
    error, and then a section together with the error [e]. *)
Inductive fails : binary -> list (Z * list byte) -> error -> Prop :=
| fails_now b addr progData e b' :
    nextSectionData b = ((true, addr, progData, Some e), b') ->
    fails b [] e
| fails_later b addr progData b' sections e :
    nextSectionData b = ((true, addr, progData, None), b') ->
    fails b' sections e ->
    fails b ((addr, progData) :: sections) e.

Lemma sections_loop_fails (start finish : Z) b sections e :
  fails b sections e ->
  forall fuel, (length sections < fuel)%nat ->
    forall allInstructions softerrs,
      (let '(first, b') := nextSectionData b in
       sections_loop nextSectionData Disasm fuel b' first start finish
         allInstructions softerrs) = Some ([], Some e, []).
Proof.
  induction 1 as [b addr progData e b' Hnext
                 |b addr progData b' sections e Hnext Hfails IH];
    intros fuel Hfuel allInstructions softerrs; rewrite Hnext.
  - destruct fuel as [|fuel]; [simpl in Hfuel; lia|]. reflexivity.
  - destruct fuel as [|fuel]; [simpl in Hfuel; lia|].
    cbn [sections_loop].
    destruct (Disasm progData addr start finish) as [instructions errors].
    apply IH. simpl in Hfuel. lia.
Qed.

End DisassembleErrors.

(** The normal end.  When the binary opens and its sections are read
    until none is left, with no error, the function returns the
    instructions of all sections, in the order of the sections, a nil hard
    error, and the soft errors of all sections in the same order. *)
Theorem DisassembleFile_reads_every_section
    {binary InstructionInstance : Type}
    (openBinary : string -> binary * option error)
    (nextSectionData : binary -> section_data * binary)
    (Disasm : list byte -> Z -> Z -> Z -> list InstructionInstance * list error)
    (path : string) (start finish : Z) (b : binary)
    (sections : list (Z * list byte)) (fuel : nat) :
  openBinary path = (b, None) ->
  reads nextSectionData b sections None ->
  (length sections <= fuel)%nat ->
  DisassembleFile openBinary nextSectionData Disasm fuel path start finish =
    Some (flat_map (fun s => (Disasm s.2 s.1 start finish).1) sections, None,
          flat_map (fun s => (Disasm s.2 s.1 start finish).2) sections).
Proof.
  intros Hopen Hreads Hfuel. unfold DisassembleFile. rewrite Hopen.
  exact (sections_loop_reads nextSectionData Disasm start finish b sections None
           Hreads fuel Hfuel [] []).
Qed.

Lemma DisassembleFile_reads_every_section_witness :
  reads scripted [(true, 4096, [xc3], None); (true, 8192, [x90], None)]
    [(4096, [xc3]); (8192, [x90])] None /\
  DisassembleFile (fun _ => ([(true, 4096, [xc3], None); (true, 8192, [x90], None)], None))
    scripted one_per_section 2 "/bin/target" 0 9223372036854775807 =
    Some ([4096; 8192], None, []).
Proof.
  assert (Hreads : reads scripted
                     [(true, 4096, [xc3], None); (true, 8192, [x90], None)]
                     [(4096, [xc3]); (8192, [x90])] None).
  { eapply reads_section; [reflexivity|]. eapply reads_section; [reflexivity|].
    eapply reads_stop. reflexivity. }
  split; [exact Hreads|].
  exact (DisassembleFile_reads_every_section
           (fun _ => ([(true, 4096, [xc3], None); (true, 8192, [x90], None)], None))
           scripted one_per_section "/bin/target" 0 9223372036854775807 _
           [(4096, [xc3]); (8192, [x90])] 2 eq_refl Hreads (Nat.le_refl _)).
Defined.

(** An error that comes with a section.  When the binary opens, some
    sections are read with nil errors and the next call returns a section
    together with an error, that error is the hard error, and everything
    collected from the sections before it is dropped: the instructions and
    the soft errors returned are nil. *)
Theorem DisassembleFile_section_error_drops_results
    {binary InstructionInstance : Type}
    (openBinary : string -> binary * option error)
    (nextSectionData : binary -> section_data * binary)
    (Disasm : list byte -> Z -> Z -> Z -> list InstructionInstance * list error)
    (path : string) (start finish : Z) (b : binary)
    (sections : list (Z * list byte)) (e : error) (fuel : nat) :
  openBinary path = (b, None) ->
  fails nextSectionData b sections e ->
  (length sections < fuel)%nat ->
  DisassembleFile openBinary nextSectionData Disasm fuel path start finish =
    Some ([], Some e, []).
Proof.
  intros Hopen Hfails Hfuel. unfold DisassembleFile. rewrite Hopen.
  exact (sections_loop_fails nextSectionData Disasm start finish b sections e
           Hfails fuel Hfuel [] []).
Qed.

Lemma DisassembleFile_section_error_drops_results_witness :
  fails scripted [(true, 4096, [xc3], None); (true, 8192, [x90], Some bad_header)]
    [(4096, [xc3])] bad_header /\
  DisassembleFile
    (fun _ => ([(true, 4096, [xc3], None); (true, 8192, [x90], Some bad_header)], None))
    scripted one_per_section 2 "/bin/target" 0 9223372036854775807 =
    Some ([], Some bad_header, []).
Proof.
  assert (Hfails : fails scripted
                     [(true, 4096, [xc3], None); (true, 8192, [x90], Some bad_header)]
                     [(4096, [xc3])] bad_header).
  { eapply fails_later; [reflexivity|]. eapply fails_now. reflexivity. }
  split; [exact Hfails|].
  exact (DisassembleFile_section_error_drops_results
           (fun _ => ([(true, 4096, [xc3], None); (true, 8192, [x90], Some bad_header)], None))
           scripted one_per_section "/bin/target" 0 9223372036854775807 _
           [(4096, [xc3])] bad_header 2 eq_refl Hfails (Nat.lt_succ_diag_r _)).
Defined.

End Disassemble.

(* ===================================================================== *)
(** ** The HTTP handlers *)
(* ===================================================================== *)

Module Handlers.
Import Go.

(** What a handler leaves on its [http.ResponseWriter]: every path ends
    with one [http.Error(w, body, code)] or with one [w.Write(b)], whose
    status is 200. *)
Inductive response : Type :=
| HttpError (body : string) (code : Z)
| Written (b : string).

Definition StatusBadRequest : Z := 400.
Definition StatusInternalServerError : Z := 500.

Definition defaultStart : Z := 0.
Definition defaultEnd : Z := 9223372036854775807.

(** [logErrors]: the lines it prints, the hard error first. *)
Definition logErrors (hardError : option error) (softErrors : list error) : list error :=
  match hardError with Some e => [e] | None => [] end ++ softErrors.

(* --------------------------------------------------------------------- *)
(** *** The access specification of ROPMemoryRegionsHandler *)
(* --------------------------------------------------------------------- *)

(** [strings.Index(s, c)] for a one-byte [c]: the index of its first
    occurrence, or -1. *)
Fixpoint Index (s : string) (c : ascii) : Z :=
  match s with
  | EmptyString => -1
  | String x s' =>
      if decide (x = c) then 0
      else let i := Index s' c in if i =? -1 then -1 else i + 1
  end.

(** [strings.Replace(s, c, "", 1)] for a one-byte [c]: [s] without the
    first occurrence of [c]. *)
Fixpoint Replace1 (s : string) (c : ascii) : string :=
  match s with
  | EmptyString => EmptyString
  | String x s' => if decide (x = c) then s' else String x (Replace1 s' c)
  end.

Section Access.

(** The constants of [memaccess.Access]. *)
Variables None_ Readable Writable Executable Free : Z.

(** One of the four [if i := strings.Index(accessS, c); i != -1] blocks. *)
Definition access_letter (flag : Z) (c : ascii) (st : Z * string) : Z * string :=
  if decide (Index st.2 c <> -1) then (Z.lor st.1 flag, Replace1 st.2 c) else st.

(** The access that the handler passes to [lib.ROPMemoryRegions] for the
    upper-cased value [accessS] of the parameter [access]; [None] stands
    for the answer 400, "Improper Access specification.". *)
Definition access_of (accessS : string) : option Z :=
  if decide (accessS = "NONE") then Some None_
  else if decide (accessS = "") then Some Readable
  else
    let st := (None_, accessS) in
    let st := access_letter Readable "R" st in
    let st := access_letter Writable "W" st in
    let st := access_letter Executable "X" st in
    let st := access_letter Free "F" st in
    if decide (st.2 <> "") then None else Some st.1.

(** The bytes of a string, and the flags of the letters among them. *)
Fixpoint chars (s : string) : list ascii :=
  match s with
  | EmptyString => []
  | String x s' => x :: chars s'
  end.

Definition flag_if (c : ascii) (flag : Z) (l : list ascii) (access : Z) : Z :=
  if decide (c ∈ l) then Z.lor access flag else access.

Definition flags_of (l : list ascii) : Z :=
  flag_if "F" Free l (flag_if "X" Executable l (flag_if "W" Writable l
    (flag_if "R" Readable l None_))).

(** The strings of letters the handler accepts: no letter twice, and no
    letter besides R, W, X and F. *)
Definition letters_once (l : list ascii) : Prop :=
  NoDup l /\ Forall (fun c => c ∈ ["R"; "W"; "X"; "F"]%char) l.

#[export] Instance letters_once_dec (l : list ascii) : Decision (letters_once l).
Proof. unfold letters_once. apply _. Defined.

(** The string after one of the four blocks. *)
Definition strip (c : ascii) (s : string) : string :=
  if decide (Index s c <> -1) then Replace1 s c else s.

End Access.

(* --------------------------------------------------------------------- *)
(** *** GadgetsFromPidHandler and FileDisasmHandler *)
(* --------------------------------------------------------------------- *)

Section Handlers.

(** The request and the libraries: [r.Form.Get], [strconv.ParseUint],
    the method [Error] of an error, and [json.MarshalIndent] on the
    gadgets and on the instructions. *)
Context {G I : Type}.
Variable FormGet : string -> string.
Variable ParseUint : string -> Z -> Z -> Z * option error.
Variable Error : error -> string.
Variable MarshalGadgets : list G -> string * option error.
Variable MarshalInstructions : list I -> string * option error.

(** [lib.GadgetsFromProcess] as the handler calls it (with the address
    window and the base), and [lib.DisassembleFile]; [None] is a call that
    does not return. *)
Variable GadgetsFromProcess : Z -> Z -> Z -> Z -> Z -> list G * option error * list error.
Variable DisassembleFile : string -> Z -> Z -> option (list I * option error * list error).

(** One optional numeric parameter:
    [if s != "" { value, err = strconv.ParseUint(s, 0, bitSize);
                  if err != nil { http.Error(w, err.Error(), 500); return } }].
    The left result is the answer of the early return; the right one the
    value and [err] as they stand after the block. *)
Definition parameter (s : string) (bitSize : Z) (value : Z) (err : option error)
  : response + Z * option error :=
  if decide (s <> "") then
    let '(value, err) := ParseUint s 0 bitSize in
    match err with
    | Some e => inl (HttpError (Error e) StatusInternalServerError)
    | None => inr (value, err)
    end
  else inr (value, err).

(** [GadgetsFromPidHandler]: the answer and the lines logged.  After the
    call of the library the handler tests [err], the variable of the
    parameters, not [harderror]. *)
Definition GadgetsFromPidHandler (pid : Z) : response * list error :=
  match parameter (FormGet "len") 32 2 None with
  | inl r => (r, [])
  | inr (gadgetLen, err) =>
  match parameter (FormGet "start") 64 defaultStart err with
  | inl r => (r, [])
  | inr (start, err) =>
  match parameter (FormGet "end") 64 defaultEnd err with
  | inl r => (r, [])
  | inr (finish, err) =>
  match parameter (FormGet "base") 64 defaultStart err with
  | inl r => (r, [])
  | inr (base, err) =>
      let '(gadgets, harderror, softerrors) :=
        GadgetsFromProcess pid gadgetLen start finish base in
      let logged := logErrors harderror softerrors in
      match err with
      | Some e =>
          (HttpError (Error e) StatusInternalServerError,
           logged ++ logErrors (Some e) softerrors)
      | None =>
          let '(b, err) := MarshalGadgets gadgets in
          match err with
          | Some e => (HttpError (Error e) StatusInternalServerError, logged)
          | None => (Written b, logged)
          end
      end
  end end end end.

(** [FileDisasmHandler]; its two parameters are parsed with 32 bits. *)
Definition FileDisasmHandler (path : string) : option (response * list error) :=
  match parameter (FormGet "start") 32 defaultStart None with
  | inl r => Some (r, [])
  | inr (start, _) =>
  match parameter (FormGet "end") 32 defaultEnd None with
  | inl r => Some (r, [])
  | inr (finish, _) =>
      '(instructions, harderror, softerrors) ← DisassembleFile path start finish;
      let logged := logErrors harderror softerrors in
      match harderror with
      | Some e => Some (HttpError (Error e) StatusInternalServerError, logged)
      | None =>
          let '(b, err) := MarshalInstructions instructions in
          match err with
          | Some e => Some (HttpError (Error e) StatusInternalServerError, logged)
          | None => Some (Written b, logged)
          end
      end
  end end.

End Handlers.

(* --------------------------------------------------------------------- *)
(** *** Facts about the access specification *)
(* --------------------------------------------------------------------- *)

Lemma Index_range (s : string) (c : ascii) : Index s c = -1 \/ 0 <= Index s c.
Proof.
  induction s as [|x s IH]; simpl; [left; reflexivity|].
  destruct (decide (x = c)); [right; lia|].
  destruct (Index s c =? -1) eqn:Hi; [left; reflexivity|].
  apply Z.eqb_neq in Hi. right. lia.
Qed.

Lemma Index_absent (s : string) (c : ascii) : Index s c = -1 <-> c ∉ chars s.
Proof.
  induction s as [|x s IH]; simpl.
  - split; [intros _; apply not_elem_of_nil | reflexivity].
  - destruct (decide (x = c)) as [->|Hne].
    + split; [discriminate|]. intros Hnin. exfalso. apply Hnin. left.
    + rewrite not_elem_of_cons, <- IH.
      destruct (Index_range s c) as [Hi|Hi].
      * rewrite Hi. simpl. split; [intros _; split; [congruence | reflexivity] | reflexivity].
      * destruct (Index s c =? -1) eqn:Hq; [apply Z.eqb_eq in Hq; lia|].
        split; [lia | intros [_ ?]; lia].
Qed.

Lemma Replace1_first (s : string) (c : ascii) :
  c ∈ chars s -> chars s ≡ₚ c :: chars (Replace1 s c).
Proof.
  induction s as [|x s IH]; simpl; intros Hin; [inversion Hin|].
  destruct (decide (x = c)) as [->|Hne]; [reflexivity|].
  apply elem_of_cons in Hin as [->|Hin]; [contradiction|].
  simpl. rewrite (IH Hin) at 1. apply Permutation_swap.
Qed.

Lemma chars_nil (s : string) : chars s = [] <-> s = EmptyString.
Proof. destruct s; simpl; split; congruence. Qed.

(** A block removes its letter once and leaves the other letters. *)
Lemma strip_chars (c : ascii) (s : string) :
  (c ∈ chars s /\ chars s ≡ₚ c :: chars (strip c s)) \/
  ((c ∉ chars s) /\ strip c s = s).
Proof.
  unfold strip. destruct (decide (Index s c <> -1)) as [Hi|Hi].
  - left. assert (Hin : c ∈ chars s).
    { destruct (decide (c ∈ chars s)) as [?|Hnin]; [assumption|].
      apply Index_absent in Hnin. contradiction. }
    split; [exact Hin | apply Replace1_first, Hin].
  - right. split; [|reflexivity]. apply Index_absent.
    destruct (decide (Index s c = -1)); [assumption | contradiction].
Qed.

Lemma strip_other (c c' : ascii) (s : string) :
  c' <> c -> c' ∈ chars (strip c s) <-> c' ∈ chars s.
Proof.
  intros Hne. destruct (strip_chars c s) as [[_ Hperm]|[_ ->]]; [|reflexivity].
  rewrite Hperm, elem_of_cons. split; [tauto | intros [?|?]; [contradiction | assumption]].
Qed.

Lemma strip_letters_once (c : ascii) (letters : list ascii) (s : string) :
  c ∉ letters ->
  (NoDup (chars (strip c s)) /\ Forall (fun x => x ∈ letters) (chars (strip c s))) <->
  (NoDup (chars s) /\ Forall (fun x => x ∈ c :: letters) (chars s)).
Proof.
  intros Hfresh. rewrite !Forall_forall.
  destruct (strip_chars c s) as [[Hin Hperm]|[Hnin ->]].
  - assert (Hmem : forall x, x ∈ chars s <-> x = c \/ x ∈ chars (strip c s))
      by (intros x; rewrite Hperm; apply elem_of_cons).
    assert (Hnd : NoDup (chars s) <->
                  (c ∉ chars (strip c s)) /\ NoDup (chars (strip c s)))
      by (rewrite Hperm; apply NoDup_cons).
    rewrite Hnd. split.
    + intros [Hnd' Hall]. split; [split; [|exact Hnd']|].
      * intros Hc. apply Hfresh, Hall, Hc.
      * intros x [->|Hx]%Hmem; [left | right; apply Hall, Hx].
    + intros [[Hc Hnd'] Hall]. split; [exact Hnd'|].
      intros x Hx.
      assert (Hx' : x ∈ c :: letters) by (apply Hall, Hmem; right; exact Hx).
      apply elem_of_cons in Hx' as [->|Hl]; [contradiction | exact Hl].
  - split.
    + intros [Hnd Hall]. split; [exact Hnd|]. intros x Hx. right. apply Hall, Hx.
    + intros [Hnd Hall]. split; [exact Hnd|].
      intros x Hx. pose proof (Hall x Hx) as Hx'.
      apply elem_of_cons in Hx' as [->|Hl]; [contradiction | exact Hl].
Qed.

Lemma flag_if_ext (c : ascii) (flag access : Z) (l l' : list ascii) :
  (c ∈ l <-> c ∈ l') -> flag_if c flag l access = flag_if c flag l' access.
Proof.
  intros H. unfold flag_if.
  destruct (decide (c ∈ l)), (decide (c ∈ l')); tauto.
Qed.

Lemma access_letter_spec (flag : Z) (c : ascii) (st : Z * string) :
  access_letter flag c st = (flag_if c flag (chars st.2) st.1, strip c st.2).
Proof.
  unfold access_letter, flag_if, strip.
  destruct (decide (Index st.2 c <> -1)) as [Hi|Hi].
  - rewrite decide_True; [reflexivity|].
    destruct (decide (c ∈ chars st.2)) as [?|Hnin]; [assumption|].
    apply Index_absent in Hnin. contradiction.
  - rewrite decide_False; [destruct st; reflexivity|].
    apply Index_absent. destruct (decide (Index st.2 c = -1)); [assumption | contradiction].
Qed.

(** The access specifications that are accepted.  Besides the two special
    values NONE (no access) and the empty string (readable), the handler
    accepts exactly the strings made of the letters R, W, X and F, in any
    order, none of them twice; the access it passes on is the union of
    the flags of the letters present.  Every other string is answered
    with 400. *)
Theorem access_of_accepts_each_letter_once
    (None_ Readable Writable Executable Free : Z) (accessS : string) :
  access_of None_ Readable Writable Executable Free accessS =
    if decide (accessS = "NONE") then Some None_
    else if decide (accessS = "") then Some Readable
    else if decide (letters_once (chars accessS))
         then Some (flags_of None_ Readable Writable Executable Free (chars accessS))
         else None.
Proof.
  unfold access_of.
  destruct (decide (accessS = "NONE")); [reflexivity|].
  destruct (decide (accessS = "")); [reflexivity|].
  rewrite !access_letter_spec. cbn [fst snd].
  set (s1 := strip "R" accessS). set (s2 := strip "W" s1). set (s3 := strip "X" s2).
  set (s4 := strip "F" s3).
  assert (Hempty : s4 = "" <-> letters_once (chars accessS)).
  { unfold letters_once.
    rewrite <- (strip_letters_once "R" ["W"; "X"; "F"]%char accessS)
      by (rewrite !elem_of_cons, elem_of_nil; intros [?|[?|[?|?]]]; done).
    fold s1.
    rewrite <- (strip_letters_once "W" ["X"; "F"]%char s1)
      by (rewrite !elem_of_cons, elem_of_nil; intros [?|[?|?]]; done).
    fold s2.
    rewrite <- (strip_letters_once "X" ["F"]%char s2)
      by (rewrite !elem_of_cons, elem_of_nil; intros [?|?]; done).
    fold s3.
    rewrite <- (strip_letters_once "F" [] s3) by apply not_elem_of_nil.
    fold s4. rewrite <- chars_nil. split.
    - intros ->. split; constructor.
    - intros [_ Hall]. destruct (chars s4) as [|x l]; [reflexivity|].
      apply Forall_cons in Hall as [Hx _]. inversion Hx. }
  assert (Hflags :
    flag_if "F" Free (chars s3)
      (flag_if "X" Executable (chars s2)
         (flag_if "W" Writable (chars s1) (flag_if "R" Readable (chars accessS) None_)))
    = flags_of None_ Readable Writable Executable Free (chars accessS)).
  { unfold flags_of.
    rewrite (flag_if_ext "F" Free _ (chars s3) (chars accessS)).
    2:{ unfold s3, s2, s1. rewrite !strip_other by done. reflexivity. }
    rewrite (flag_if_ext "X" Executable _ (chars s2) (chars accessS)).
    2:{ unfold s2, s1. rewrite !strip_other by done. reflexivity. }
    rewrite (flag_if_ext "W" Writable _ (chars s1) (chars accessS)).
    2:{ unfold s1. rewrite !strip_other by done. reflexivity. }
    reflexivity. }
  rewrite Hflags.
  destruct (decide (s4 <> "")) as [Hne|Heq].
  - rewrite decide_False; [reflexivity|]. intros Hl. apply Hne, Hempty, Hl.
  - rewrite decide_True; [reflexivity|]. apply Hempty.
    destruct (decide (s4 = "")); [assumption | contradiction].
Qed.

(** Some access specifications: letters in any order; a letter twice; a
    letter that is no access. *)
Example access_of_examples :
  access_of 0 1 2 4 8 "XR" = Some 5 /\
  access_of 0 1 2 4 8 "RWXF" = Some 15 /\
  access_of 0 1 2 4 8 "RR" = None /\
  access_of 0 1 2 4 8 "RQ" = None /\
  access_of 0 1 2 4 8 "NONE" = Some 0 /\
  access_of 0 1 2 4 8 "" = Some 1.
Proof. repeat split; reflexivity. Qed.

(* --------------------------------------------------------------------- *)
(** *** Facts about the two handlers *)
(* --------------------------------------------------------------------- *)

Section HandlerFacts.

Context {G I : Type}.
Variable FormGet : string -> string.
Variable ParseUint : string -> Z -> Z -> Z * option error.
Variable Error : error -> string.

(** A parameter either ends the request with the error of its parsing, or
    leaves a value and a nil [err]. *)
Lemma parameter_cases (s : string) (bitSize value : Z) :
  (exists e,
     s <> "" /\ (ParseUint s 0 bitSize).2 = Some e /\
     parameter ParseUint Error s bitSize value None =
       inl (HttpError (Error e) StatusInternalServerError)) \/
  (exists value', parameter ParseUint Error s bitSize value None = inr (value', None)).
Proof.
  unfold parameter. destruct (decide (s <> "")) as [Hs|Hs]; [|right; eauto].
  destruct (ParseUint s 0 bitSize) as [v [e|]]; [left | right]; eauto.
Qed.

End HandlerFacts.

(** A hard error of the enumeration never reaches the client of
    [GadgetsFromPidHandler].  Either one of the four parameters fails to
    parse, and the answer is 500 with that error before the library is
    called; or the library is called, its hard error and soft errors are
    logged, and the answer is the JSON of the gadgets it returned (or 500
    with the error of the encoding), whether or not it returned a hard
    error. *)
Theorem GadgetsFromPidHandler_hard_error_only_logged
    {G : Type}
    (FormGet : string -> string)
    (ParseUint : string -> Z -> Z -> Z * option error)
    (Error : error -> string)
    (MarshalGadgets : list G -> string * option error)
    (GadgetsFromProcess : Z -> Z -> Z -> Z -> Z -> list G * option error * list error)
    (pid : Z) :
  (exists key bitSize e,
     key ∈ ["len"; "start"; "end"; "base"] /\
     FormGet key <> "" /\
     (ParseUint (FormGet key) 0 bitSize).2 = Some e /\
     GadgetsFromPidHandler FormGet ParseUint Error MarshalGadgets GadgetsFromProcess pid =
       (HttpError (Error e) StatusInternalServerError, [])) \/
  (exists gadgetLen start finish base,
     GadgetsFromPidHandler FormGet ParseUint Error MarshalGadgets GadgetsFromProcess pid =
       (match MarshalGadgets (GadgetsFromProcess pid gadgetLen start finish base).1.1 with
        | (b, None) => Written b
        | (_, Some e) => HttpError (Error e) StatusInternalServerError
        end,
        logErrors (GadgetsFromProcess pid gadgetLen start finish base).1.2
                  (GadgetsFromProcess pid gadgetLen start finish base).2)).
Proof.
  unfold GadgetsFromPidHandler.
  destruct (parameter_cases ParseUint Error (FormGet "len") 32 2)
    as [(e & Hs & He & ->)|(gadgetLen & ->)].
  { left. exists "len", 32, e. split; [set_solver | done]. }
  destruct (parameter_cases ParseUint Error (FormGet "start") 64 defaultStart)
    as [(e & Hs & He & ->)|(start & ->)].
  { left. exists "start", 64, e. split; [set_solver | done]. }
  destruct (parameter_cases ParseUint Error (FormGet "end") 64 defaultEnd)
    as [(e & Hs & He & ->)|(finish & ->)].
  { left. exists "end", 64, e. split; [set_solver | done]. }
  destruct (parameter_cases ParseUint Error (FormGet "base") 64 defaultStart)
    as [(e & Hs & He & ->)|(base & ->)].
  { left. exists "base", 64, e. split; [set_solver | done]. }
  right. exists gadgetLen, start, finish, base.
  destruct (GadgetsFromProcess pid gadgetLen start finish base)
    as [[gadgets harderror] softerrors].
  cbn [fst snd]. destruct (MarshalGadgets gadgets) as [b [e|]]; reflexivity.
Qed.

(** The enumeration fails on a process that does not exist, and the
    client is answered with the JSON of no gadgets. *)
Example GadgetsFromPidHandler_answers_after_hard_error :
  GadgetsFromPidHandler (fun _ => "") (fun _ _ _ => (0, None)) (fun _ => "error")
    (fun gadgets : list Z => (match gadgets with [] => "null" | _ => "[...]" end, None))
    (fun _ _ _ _ _ => ([], Some (ErrNew "no such process"), [])) 7
  = (Written "null", [ErrNew "no such process"]).
Proof. reflexivity. Qed.

(** An error of the section iterator that comes without a section is
    invisible to the client of [FileDisasmHandler].  When the two
    parameters parse, the binary opens, its sections are read with nil
    errors until a call reports no further section together with an error,
    and the instructions read are encoded, the answer is that encoding with
    status 200, and the lines logged are the soft errors of the sections:
    the error is neither answered nor logged. *)
Theorem FileDisasmHandler_answers_without_dropped_error
    {binary I : Type}
    (FormGet : string -> string)
    (ParseUint : string -> Z -> Z -> Z * option error)
    (Error : error -> string)
    (MarshalInstructions : list I -> string * option error)
    (openBinary : string -> binary * option error)
    (nextSectionData : binary -> Disassemble.section_data * binary)
    (Disasm : list byte -> Z -> Z -> Z -> list I * list error)
    (fuel : nat) (path : string) (start finish : Z) (err1 err2 : option error)
    (b : binary) (sections : list (Z * list byte)) (e : error) (body : string) :
  parameter ParseUint Error (FormGet "start") 32 defaultStart None = inr (start, err1) ->
  parameter ParseUint Error (FormGet "end") 32 defaultEnd None = inr (finish, err2) ->
  openBinary path = (b, None) ->
  Disassemble.reads nextSectionData b sections (Some e) ->
  (length sections <= fuel)%nat ->
  MarshalInstructions (Disassemble.instructions_of Disasm start finish sections)
    = (body, None) ->
  FileDisasmHandler FormGet ParseUint Error MarshalInstructions
    (Disassemble.DisassembleFile openBinary nextSectionData Disasm fuel) path
  = Some (Written body, Disassemble.softerrs_of Disasm start finish sections).
Proof.
  intros Hstart Hend Hopen Hreads Hfuel Hbody.
  unfold FileDisasmHandler. rewrite Hstart, Hend.
  unfold Disassemble.DisassembleFile. rewrite Hopen.
  rewrite (Disassemble.sections_loop_reads nextSectionData Disasm start finish b sections
             (Some e) Hreads fuel Hfuel [] []).
  simpl. rewrite Hbody. reflexivity.
Qed.

Lemma FileDisasmHandler_answers_without_dropped_error_witness :
  Disassemble.reads Disassemble.scripted
    [(true, 4096, [xc3], None); (false, 0, [], Some Disassemble.bad_header)]
    [(4096, [xc3])] (Some Disassemble.bad_header) /\
  FileDisasmHandler (fun _ => "") (fun _ _ _ => (0, None)) (fun _ => "error")
    (fun _ : list Z => ("[4096]", None))
    (Disassemble.DisassembleFile
       (fun _ => ([(true, 4096, [xc3], None);
                   (false, 0, [], Some Disassemble.bad_header)], None))
       Disassemble.scripted Disassemble.one_per_section 1) "/bin/target"
  = Some (Written "[4096]", []).
Proof.
  assert (Hreads : Disassemble.reads Disassemble.scripted
                     [(true, 4096, [xc3], None);
                      (false, 0, [], Some Disassemble.bad_header)]
                     [(4096, [xc3])] (Some Disassemble.bad_header)).
  { eapply Disassemble.reads_section; [reflexivity|].
    eapply Disassemble.reads_stop. reflexivity. }
  split; [exact Hreads|].
  exact (FileDisasmHandler_answers_without_dropped_error
           (fun _ => "") (fun _ _ _ => (0, None)) (fun _ => "error")
           (fun _ : list Z => ("[4096]", None))
           (fun _ => ([(true, 4096, [xc3], None);
                       (false, 0, [], Some Disassemble.bad_header)], None))
           Disassemble.scripted Disassemble.one_per_section 1 "/bin/target"
           defaultStart defaultEnd None None _ [(4096, [xc3])] Disassemble.bad_header
           "[4096]" eq_refl eq_refl eq_refl Hreads (Nat.le_refl _) eq_refl).
Defined.

End Handlers.
